(** * Raven Transition: a shallow embedding of the canvas transition engine

    The component under study (the [RavenTransition] React component and its
    hooks) draws a timed, shape-masked wipe between two images.  JavaScript
    numbers are read as real numbers: [Math.min], [Math.max], [Math.sin],
    [Math.cos], [Math.pow] and [Math.PI] become [Rmin], [Rmax], [sin],
    [cos], [pow] and [PI].  A number used as a condition ([!width]) is
    falsy exactly when it is zero. *)

From Stdlib Require Import Reals Lra Psatz List Arith Lia Bool String.
From Stdlib Require Import Permutation.
Import ListNotations.

Open Scope R_scope.

(** ** Numeric helpers *)

Module Easing.

(** [t < 0.5 ? 4 * t * t * t : 1 - Math.pow(-2 * t + 2, 3) / 2] *)
Definition easeInOutCubic (t : R) : R :=
  if Rlt_dec t 0.5 then 4 * t * t * t else 1 - (-2 * t + 2) ^ 3 / 2.

(** [1 - Math.pow(1 - t, 4)] *)
Definition easeOutQuart (t : R) : R := 1 - (1 - t) ^ 4.

(** [Math.max(0, Math.min(1, value))] *)
Definition clamp01 (value : R) : R := Rmax 0 (Rmin 1 value).

End Easing.
Export Easing.

(** ** Silhouette geometry *)

Module Geometry.

Record Point := mkPoint { px : R; py : R }.

Record RavenGeometry := mkGeometry {
  points : list Point;
  offsetX : R;
  offsetY : R;
  shapeWidth : R;
  shapeHeight : R;
  eased : R
}.

Definition RAVEN_POINTS : list (R * R) :=
  [ (-0.28, 0.52);
    (-0.1, 0.42);
    (0.06, 0.33);
    (0.15, 0.24);
    (0.28, 0.12);
    (0.38, 0.03);
    (0.5, -0.08);
    (0.62, -0.18);
    (0.75, -0.23);
    (0.87, -0.18);
    (1.0, -0.08);
    (1.07, 0.02);
    (1.16, 0.08);
    (1.22, 0.18);
    (1.26, 0.28);
    (1.24, 0.38);
    (1.16, 0.48);
    (1.02, 0.58);
    (0.9, 0.66);
    (0.72, 0.72);
    (0.54, 0.7);
    (0.36, 0.68);
    (0.18, 0.66);
    (0.04, 0.62);
    (-0.12, 0.58) ].

(** The callback given to [RAVEN_POINTS.map] inside [computeRavenGeometry];
    it closes over the placement values computed before the map. *)
Definition placePoint (offsetX offsetY shapeWidth shapeHeight skew lift : R)
    (p : R * R) : Point :=
  let '(nx, ny) := p in
  let centeredY := ny - 0.5 in
  let scaledX :=
    offsetX + shapeWidth * (nx + 0.15) + centeredY * shapeHeight * skew in
  let scaledY := offsetY + shapeHeight * centeredY * (1 - lift * 0.35) in
  mkPoint scaledX scaledY.

Definition computeRavenGeometry (width height progress : R) : RavenGeometry :=
  let eased := easeInOutCubic progress in
  let base := Rmin width height in
  let shapeWidth := base * 1.32 in
  let shapeHeight := base * 0.74 in
  let travel := width + shapeWidth * 0.85 in
  let offsetX := eased * travel - shapeWidth * 0.75 in
  let offsetY := height * 0.52 - sin (eased * PI) * base * 0.08 in
  let skew := (eased - 0.5) * 0.55 in
  let lift := sin (eased * PI) * 0.18 in
  let points :=
    map (placePoint offsetX offsetY shapeWidth shapeHeight skew lift)
        RAVEN_POINTS in
  mkGeometry points offsetX offsetY shapeWidth shapeHeight eased.

End Geometry.
Export Geometry.

(** ** Feather seeds *)

Module Feathers.

Record FeatherSeed := mkSeed {
  seedOffsetY : R;
  sizeScale : R;
  delay : R;
  sway : R
}.

(** The callback of [Array.from({ length: 18 }, (_, idx) => ...)]. *)
Definition featherSeedAt (idx : nat) : FeatherSeed :=
  let seed := (INR idx + 1) * 37 in
  let base := (sin (seed * 1.3) + 1) / 2 in
  let spread := (cos (seed * 0.77) + 1) / 2 in
  {| seedOffsetY := spread * 0.9 - 0.45;
     sizeScale := 0.55 + base * 0.65;
     delay := INR (idx mod 6) * 0.05;
     sway := sin (seed * 0.61) * 0.9 |}.

Definition generateFeatherSeeds : list FeatherSeed :=
  map featherSeedAt (seq 0 18).

(** [useMemo(factory, [])]: the memo cell of the component instance holds
    nothing before the first render and the factory's value afterwards; with
    an empty dependency list the stored value is returned on every later
    render. *)
Definition MemoCell (A : Type) := option A.

Definition useMemo0 {A : Type} (factory : unit -> A) (cell : MemoCell A)
    : A * MemoCell A :=
  match cell with
  | Some v => (v, Some v)
  | None => let v := factory tt in (v, Some v)
  end.

Definition useFeatherSeeds (cell : MemoCell (list FeatherSeed))
    : list FeatherSeed * MemoCell (list FeatherSeed) :=
  useMemo0 (fun _ => generateFeatherSeeds) cell.

End Feathers.
Export Feathers.

(** ** Canvas operations

    The 2D context is observed through the sequence of calls issued on it,
    oldest first.  Creating a gradient does not touch the surface; the
    gradient object travels with the [fillStyle] assignment that uses it. *)

Module Canvas.

Record HTMLImageElement := mkImage {
  img_src : string;
  img_width : R;
  img_height : R
}.

(** [(HTMLImageElement | null)[]]; reading past the end gives [undefined],
    which the code only ever tests for truthiness, like [null]. *)
Definition LoadedImages := list (option HTMLImageElement).

Definition slot (images : LoadedImages) (index : nat)
    : option HTMLImageElement :=
  match nth_error images index with
  | Some entry => entry
  | None => None
  end.

Record Color := rgba { red : R; green : R; blue : R; alpha : R }.

Record Gradient := mkGradient {
  g_x0 : R; g_y0 : R; g_x1 : R; g_y1 : R;
  g_stops : list (R * Color)
}.

Definition createLinearGradient (x0 y0 x1 y1 : R) : Gradient :=
  mkGradient x0 y0 x1 y1 [].

Definition addColorStop (at_ : R) (c : Color) (g : Gradient) : Gradient :=
  mkGradient (g_x0 g) (g_y0 g) (g_x1 g) (g_y1 g) (g_stops g ++ [(at_, c)]).

Inductive CanvasOp :=
| ClearRect (x y w h : R)
| FillRect (x y w h : R)
| DrawImage (img : HTMLImageElement) (x y w h : R)
| Save
| Restore
| BeginPath
| MoveTo (x y : R)
| LineTo (x y : R)
| QuadraticCurveTo (cpx cpy x y : R)
| ClosePath
| Clip
| Fill
| Translate (x y : R)
| Rotate (angle : R)
| SetFillStyle (g : Gradient)
| SetGlobalAlpha (a : R)
| SetGlobalCompositeOperation (mode : string)
| ResetTransform
| Scale (x y : R)
(** assigning [canvas.width] and [canvas.height] (the backing store) *)
| SetCanvasSize (w h : R).

Definition Ctx := list CanvasOp.

Definition drawCoverImage (img : HTMLImageElement) (width height : R)
    : list CanvasOp :=
  let imageRatio := img_width img / img_height img in
  let canvasRatio := width / height in
  let '(drawWidth, drawHeight) :=
    if Rgt_dec imageRatio canvasRatio
    then (height * imageRatio, height)
    else (width, width / imageRatio) in
  let offsetX := (width - drawWidth) / 2 in
  let offsetY := (height - drawHeight) / 2 in
  [DrawImage img offsetX offsetY drawWidth drawHeight].

Definition traceRavenPath (points : list Point) : list CanvasOp :=
  match points with
  | [] => []
  | p0 :: rest =>
      BeginPath :: MoveTo (px p0) (py p0)
        :: map (fun p => LineTo (px p) (py p)) rest ++ [ClosePath]
  end.

(** The body of [featherSeeds.forEach(seed => ...)] in [drawFeathers]. *)
Definition drawFeather (progress width height baseSize baseX : R)
    (seed : FeatherSeed) : list CanvasOp :=
  let local := (progress - delay seed) / 0.75 in
  if Rle_dec local 0 then []
  else
    let clamped := clamp01 local in
    let fade := 1 - clamped in
    if Rle_dec fade 0.01 then []
    else
      let size := baseSize * sizeScale seed in
      let centerX := baseX - clamped * width * 0.32 in
      let centerY := height * 0.5 + seedOffsetY seed * height * 0.32 in
      let gradient :=
        addColorStop 1 (rgba 42 44 60 0.15)
          (addColorStop 0 (rgba 0 0 0 0.62)
             (createLinearGradient 0 0 0 (- size * 1.4))) in
      [ Save;
        SetGlobalAlpha (fade * 0.5);
        Translate centerX centerY;
        Rotate (-0.35 + sway seed * (1 - fade));
        BeginPath;
        MoveTo 0 0;
        LineTo (- size * 0.5) (- size * 1.1);
        QuadraticCurveTo (size * 0.1) (- size * 0.9) (size * 0.22) (- size * 1.45);
        LineTo (size * 0.18) (- size * 0.35);
        ClosePath;
        SetFillStyle gradient;
        Fill;
        Restore ].

Definition drawFeathers (featherSeeds : list FeatherSeed)
    (progress width height : R) (geometry : RavenGeometry) : list CanvasOp :=
  let eased := easeOutQuart progress in
  let baseSize := Rmin width height * 0.07 in
  let baseX := offsetX geometry + shapeWidth geometry * 0.28 in
  let sweepWidth := shapeWidth geometry * 0.35 in
  let sweepX := offsetX geometry + shapeWidth geometry * 0.42 in
  let sweepGradient :=
    addColorStop 1 (rgba 40 44 72 0)
      (addColorStop 0.5 (rgba 120 122 180 (0.28 * (1 - eased)))
         (addColorStop 0 (rgba 40 44 72 0)
            (createLinearGradient (sweepX - sweepWidth) 0
               (sweepX + sweepWidth) 0))) in
  flat_map (drawFeather progress width height baseSize baseX) featherSeeds
  ++ [ Save;
       SetGlobalCompositeOperation "lighter";
       SetFillStyle sweepGradient;
       FillRect (sweepX - sweepWidth) 0 (sweepWidth * 2) height;
       Restore ].

End Canvas.
Export Canvas.

(** ** The transition scheduler and compositor ([useTransitionCanvas])

    React state ([activeIndex], [isAnimating]) and refs live in one explicit
    record.  A callback created by [useCallback] reads [images],
    [activeIndex], [duration] and [featherSeeds] from the render that
    created it: those captured values are the [Render] argument of every
    callback below.  Refs are read from the current state. *)

Module Scheduler.

Record TransitionState := mkTransition { tr_from : nat; tr_to : nat }.

Record ViewportState := mkViewport {
  vp_width : R;
  vp_height : R;
  vp_dpr : R
}.

Record Render := mkRender {
  r_images : LoadedImages;
  r_activeIndex : nat;
  r_duration : R;
  r_featherSeeds : list FeatherSeed
}.

Record Engine := mkEngine {
  activeIndex : nat;
  isAnimating : bool;
  animationFrameRef : option nat;
  startTimestampRef : R;
  transitionRef : TransitionState;
  ctxRef : option Ctx;
  viewportRef : ViewportState;
  isAnimatingRef : bool;
  (** the host's frame-callback queue: handles given out so far, and the
      callbacks (each an [animate] closure of some render) still pending *)
  rafCounter : nat;
  rafQueue : list (nat * Render)
}.

Definition initialEngine : Engine :=
  {| activeIndex := 0;
     isAnimating := false;
     animationFrameRef := None;
     startTimestampRef := 0;
     transitionRef := mkTransition 0 1;
     ctxRef := None;
     viewportRef := mkViewport 0 0 1;
     isAnimatingRef := false;
     rafCounter := 0;
     rafQueue := [] |}.

Definition setActiveIndex (v : nat) (s : Engine) : Engine :=
  mkEngine v (isAnimating s) (animationFrameRef s) (startTimestampRef s)
    (transitionRef s) (ctxRef s) (viewportRef s) (isAnimatingRef s)
    (rafCounter s) (rafQueue s).

Definition setIsAnimating (v : bool) (s : Engine) : Engine :=
  mkEngine (activeIndex s) v (animationFrameRef s) (startTimestampRef s)
    (transitionRef s) (ctxRef s) (viewportRef s) (isAnimatingRef s)
    (rafCounter s) (rafQueue s).

Definition set_animationFrameRef (v : option nat) (s : Engine) : Engine :=
  mkEngine (activeIndex s) (isAnimating s) v (startTimestampRef s)
    (transitionRef s) (ctxRef s) (viewportRef s) (isAnimatingRef s)
    (rafCounter s) (rafQueue s).

Definition set_startTimestampRef (v : R) (s : Engine) : Engine :=
  mkEngine (activeIndex s) (isAnimating s) (animationFrameRef s) v
    (transitionRef s) (ctxRef s) (viewportRef s) (isAnimatingRef s)
    (rafCounter s) (rafQueue s).

Definition set_transitionRef (v : TransitionState) (s : Engine) : Engine :=
  mkEngine (activeIndex s) (isAnimating s) (animationFrameRef s)
    (startTimestampRef s) v (ctxRef s) (viewportRef s) (isAnimatingRef s)
    (rafCounter s) (rafQueue s).

Definition set_ctxRef (v : option Ctx) (s : Engine) : Engine :=
  mkEngine (activeIndex s) (isAnimating s) (animationFrameRef s)
    (startTimestampRef s) (transitionRef s) v (viewportRef s)
    (isAnimatingRef s) (rafCounter s) (rafQueue s).

Definition set_viewportRef (v : ViewportState) (s : Engine) : Engine :=
  mkEngine (activeIndex s) (isAnimating s) (animationFrameRef s)
    (startTimestampRef s) (transitionRef s) (ctxRef s) v
    (isAnimatingRef s) (rafCounter s) (rafQueue s).

Definition set_isAnimatingRef (v : bool) (s : Engine) : Engine :=
  mkEngine (activeIndex s) (isAnimating s) (animationFrameRef s)
    (startTimestampRef s) (transitionRef s) (ctxRef s) (viewportRef s) v
    (rafCounter s) (rafQueue s).

(** [requestAnimationFrame(animate)]: a fresh non-zero handle; the callback
    is the [animate] closure of render [r]. *)
Definition requestAnimationFrame (r : Render) (s : Engine) : nat * Engine :=
  let handle := S (rafCounter s) in
  (handle,
   mkEngine (activeIndex s) (isAnimating s) (animationFrameRef s)
     (startTimestampRef s) (transitionRef s) (ctxRef s) (viewportRef s)
     (isAnimatingRef s) handle (rafQueue s ++ [(handle, r)])).

Definition cancelAnimationFrame (handle : nat) (s : Engine) : Engine :=
  mkEngine (activeIndex s) (isAnimating s) (animationFrameRef s)
    (startTimestampRef s) (transitionRef s) (ctxRef s) (viewportRef s)
    (isAnimatingRef s) (rafCounter s)
    (filter (fun cb => negb (Nat.eqb (fst cb) handle)) (rafQueue s)).

(** Issue calls on the context held by [ctxRef]. *)
Definition emit (ops : list CanvasOp) (s : Engine) : Engine :=
  match ctxRef s with
  | Some ctx => set_ctxRef (Some (ctx ++ ops)) s
  | None => s
  end.

Definition placeholderGradient (width height : R) : Gradient :=
  addColorStop 1 (rgba 8 11 24 0.85)
    (addColorStop 0 (rgba 18 24 48 0.9)
       (createLinearGradient 0 0 width height)).

Definition drawStatic (r : Render) (s : Engine) : Engine :=
  let width := vp_width (viewportRef s) in
  let height := vp_height (viewportRef s) in
  match ctxRef s with
  | None => s
  | Some _ =>
      if Req_dec_T width 0 then s
      else if Req_dec_T height 0 then s
      else
        let s := emit [ClearRect 0 0 width height] s in
        match slot (r_images r) (r_activeIndex r) with
        | None =>
            emit [ SetFillStyle (placeholderGradient width height);
                   FillRect 0 0 width height ] s
        | Some currentImage => emit (drawCoverImage currentImage width height) s
        end
  end.

Definition ravenGradient (geometry : RavenGeometry) : Gradient :=
  addColorStop 1 (rgba 2 2 6 0.9)
    (addColorStop 0.45 (rgba 14 14 18 0.65)
       (addColorStop 0 (rgba 6 6 10 0.8)
          (createLinearGradient
             (offsetX geometry)
             (offsetY geometry - shapeHeight geometry * 0.5)
             (offsetX geometry + shapeWidth geometry)
             (offsetY geometry + shapeHeight geometry * 0.5)))).

Definition drawFrame (r : Render) (progress : R) (s : Engine) : Engine :=
  let transition := transitionRef s in
  let width := vp_width (viewportRef s) in
  let height := vp_height (viewportRef s) in
  match ctxRef s with
  | None => s
  | Some _ =>
      if Req_dec_T width 0 then s
      else if Req_dec_T height 0 then s
      else
        match slot (r_images r) (tr_from transition),
              slot (r_images r) (tr_to transition) with
        | Some fromImage, Some toImage =>
            let s := emit [ClearRect 0 0 width height] s in
            let s := emit (drawCoverImage fromImage width height) s in
            let geometry := computeRavenGeometry width height progress in
            let s := emit [Save] s in
            let s := emit (traceRavenPath (points geometry)) s in
            let s := emit [Clip] s in
            let s := emit (drawCoverImage toImage width height) s in
            let s := emit [Restore] s in
            let s := emit [Save] s in
            let s := emit (traceRavenPath (points geometry)) s in
            let s :=
              emit [ SetFillStyle (ravenGradient geometry);
                     SetGlobalAlpha (0.75 + 0.15 * (1 - progress));
                     Fill;
                     Restore ] s in
            emit (drawFeathers (r_featherSeeds r) progress width height
                    geometry) s
        | _, _ => s
        end
  end.

Definition cancelAnimation (s : Engine) : Engine :=
  match animationFrameRef s with
  | Some (S _ as handle) =>
      set_animationFrameRef None (cancelAnimationFrame handle s)
  | _ => s
  end.

Definition animate (r : Render) (timestamp : R) (s : Engine) : Engine :=
  let s :=
    if Req_dec_T (startTimestampRef s) 0
    then set_startTimestampRef timestamp s
    else s in
  let elapsed := timestamp - startTimestampRef s in
  let progress := clamp01 (elapsed / r_duration r) in
  let s := drawFrame r progress s in
  if Rlt_dec progress 1 then
    let '(handle, s) := requestAnimationFrame r s in
    set_animationFrameRef (Some handle) s
  else
    let s := set_isAnimatingRef false s in
    let s := setIsAnimating false s in
    let s := setActiveIndex (tr_to (transitionRef s)) s in
    let s := set_startTimestampRef 0 s in
    let s := cancelAnimation s in
    drawStatic r s.

Definition startTransition (r : Render) (s : Engine) : Engine :=
  if isAnimatingRef s then s
  else
    let nextIndex := match r_activeIndex r with O => 1%nat | _ => 0%nat end in
    match slot (r_images r) (r_activeIndex r), slot (r_images r) nextIndex with
    | Some _, Some _ =>
        let s := set_transitionRef (mkTransition (r_activeIndex r) nextIndex) s in
        let s := set_isAnimatingRef true s in
        let s := setIsAnimating true s in
        let s := set_startTimestampRef 0 s in
        let s := cancelAnimation s in
        let '(handle, s) := requestAnimationFrame r s in
        set_animationFrameRef (Some handle) s
    | _, _ => s
    end.

(** [Math.round]: the nearest integer, halves upwards. *)
Definition round (x : R) : R := IZR (Int_part (x + 0.5)).

(** [ensureContext] and [resize], for a mounted canvas whose container
    measures [rectWidth] by [rectHeight]; [getContext] hands out the one
    context of the canvas. *)
Definition ensureContext (s : Engine) : Engine :=
  match ctxRef s with
  | Some _ => s
  | None => set_ctxRef (Some []) s
  end.

Definition resize (rectWidth rectHeight devicePixelRatio : R) (s : Engine)
    : Engine :=
  let dpr := if Req_dec_T devicePixelRatio 0 then 1 else devicePixelRatio in
  let s := ensureContext s in
  let s :=
    emit [ SetCanvasSize (Rmax 1 (round (rectWidth * dpr)))
                         (Rmax 1 (round (rectHeight * dpr)));
           ResetTransform;
           Scale dpr dpr ] s in
  set_viewportRef (mkViewport rectWidth rectHeight dpr) s.

(** *** Host events

    What the component receives from outside: the values it is rendered
    with, a click on the trigger, a display frame, and a window resize. *)

Record Props := mkProps {
  p_images : LoadedImages;
  p_duration : R;
  p_featherSeeds : list FeatherSeed
}.

(** The callbacks wired to the page are those of the latest render, which
    sees the current [activeIndex]. *)
Definition currentRender (p : Props) (s : Engine) : Render :=
  mkRender (p_images p) (activeIndex s) (p_duration p) (p_featherSeeds p).

Definition click (p : Props) (s : Engine) : Engine :=
  startTransition (currentRender p s) s.

(** A display frame runs the callbacks that were pending when it began,
    in request order; callbacks requested meanwhile wait for the next
    frame, and one cancelled meanwhile does not run. *)
Fixpoint runCallbacks (timestamp : R) (cbs : list (nat * Render))
    (s : Engine) : Engine :=
  match cbs with
  | [] => s
  | (handle, r) :: rest =>
      if existsb (fun cb => Nat.eqb (fst cb) handle) (rafQueue s)
      then
        runCallbacks timestamp rest
          (animate r timestamp (cancelAnimationFrame handle s))
      else runCallbacks timestamp rest s
  end.

Definition frame (timestamp : R) (s : Engine) : Engine :=
  runCallbacks timestamp (rafQueue s) s.

(** [handleResize], the window's resize listener. *)
Definition handleResize (p : Props) (rectWidth rectHeight devicePixelRatio : R)
    (s : Engine) : Engine :=
  let r := currentRender p s in
  let s := resize rectWidth rectHeight devicePixelRatio s in
  if isAnimatingRef s then s else drawStatic r s.

(** The effects that follow a render in which [images] or [activeIndex]
    changed.  [drawStatic] depends on both, so it is a new callback in such
    a render, and both effects list it in their dependencies.  The mount
    effect is torn down and run again: its cleanup removes the resize
    listener and calls [cancelAnimation()], its body calls
    [ensureContext()] and [resize()] and installs the new listener.  Then
    the second effect runs: [if (!isAnimatingRef.current) drawStatic()].
    The container measures [rectWidth] by [rectHeight] at that moment. *)
Definition rendered (p : Props) (rectWidth rectHeight devicePixelRatio : R)
    (s : Engine) : Engine :=
  let r := currentRender p s in
  let s := cancelAnimation s in
  let s := ensureContext s in
  let s := resize rectWidth rectHeight devicePixelRatio s in
  if isAnimatingRef s then s else drawStatic r s.

Inductive Event :=
| Click (p : Props)
| Frame (timestamp : R)
| Resize (p : Props) (rectWidth rectHeight devicePixelRatio : R)
| Rendered (p : Props) (rectWidth rectHeight devicePixelRatio : R).

Definition step (s : Engine) (e : Event) : Engine :=
  match e with
  | Click p => click p s
  | Frame timestamp => frame timestamp s
  | Resize p w h dpr => handleResize p w h dpr s
  | Rendered p w h dpr => rendered p w h dpr s
  end.

Definition run (events : list Event) (s : Engine) : Engine :=
  fold_left step events s.

End Scheduler.
Export Scheduler.

(** ** Image slots ([useLoadedImages])

    The hook keeps the [images] array in React state and, in an effect that
    runs whenever [sources] changes, starts one load per source.  Each load
    leaves behind an [onload] handler closed over its [index] and its
    [image] element; the host fires it when decoding ends. *)

Module Assets.

(** The [onload] closure of one load. *)
Record Load := mkLoad { load_index : nat; load_src : string }.

Record AssetState := mkAssets {
  images : LoadedImages;
  pending : list Load
}.

(** [useState<LoadedImages>([null, null])] *)
Definition initialAssets : AssetState := mkAssets [None; None] [].

(** [next[index] = value] on a copy of the array; writing past the end
    lengthens the array, the skipped entries reading as [undefined]. *)
Fixpoint array_set (l : LoadedImages) (index : nat)
    (value : option HTMLImageElement) : LoadedImages :=
  match l, index with
  | [], O => [value]
  | [], S i => None :: array_set [] i value
  | _ :: rest, O => value :: rest
  | entry :: rest, S i => entry :: array_set rest i value
  end.

Definition setImages (update : LoadedImages -> LoadedImages)
    (st : AssetState) : AssetState :=
  mkAssets (update (images st)) (pending st).

(** The body of [sources.forEach((src, index) => ...)]: a new element is
    pointed at [src], the slot is set to [null], and the handler is
    installed. *)
Definition startLoad (st : AssetState) (entry : nat * string) : AssetState :=
  let '(index, src) := entry in
  let st := setImages (fun prev => array_set prev index None) st in
  mkAssets (images st) (pending st ++ [mkLoad index src]).

Definition indexed (sources : list string) : list (nat * string) :=
  combine (seq 0 (List.length sources)) sources.

(** The effect of [useLoadedImages], run with the current [sources]. *)
Definition useLoadedImages_effect (sources : list string) (st : AssetState)
    : AssetState :=
  fold_left startLoad (indexed sources) st.

(** [image.onload]: by now the element carries its decoded size. *)
Definition onload (l : Load) (naturalWidth naturalHeight : R)
    (st : AssetState) : AssetState :=
  let image := mkImage (load_src l) naturalWidth naturalHeight in
  setImages (fun prev => array_set prev (load_index l) (Some image)) st.

(** The host reports that the [k]-th outstanding load has finished. *)
Definition completeLoad (k : nat) (naturalWidth naturalHeight : R)
    (st : AssetState) : AssetState :=
  match nth_error (pending st) k with
  | Some l =>
      let st := onload l naturalWidth naturalHeight st in
      mkAssets (images st) (firstn k (pending st) ++ skipn (S k) (pending st))
  | None => st
  end.

Definition DEFAULT_SOURCES : list string :=
  ["/default-first.svg"%string; "/default-second.svg"%string].

End Assets.
Export Assets.

(** ** Object URLs ([useObjectUrlManager])

    The hook keeps the object URL currently held for each slot in a ref,
    initially [["", ""]].  The host's registry of object URLs is observed
    through the sequence of [URL.revokeObjectURL] calls, oldest first. *)

Module ObjectUrls.

(** A string used as a condition: only the empty string is falsy. *)
Definition truthy (url : string) : bool :=
  match url with
  | EmptyString => false
  | String _ _ => true
  end.

Record UrlManager := mkUrls {
  urls : list string;
  revokedUrls : list string
}.

(** [useRef<string[]>(["", ""])] *)
Definition initialUrls : UrlManager := mkUrls [""%string; ""%string] [].

(** [ref.current[index]]; past the end the read gives [undefined], which
    the code only tests for truthiness, like [""]. *)
Definition urlAt (l : list string) (index : nat) : string :=
  nth index l ""%string.

(** [ref.current[index] = url], in place; entries skipped by a write past
    the end are holes: falsy when read and passed over by [forEach], as
    the empty string is by the [if (url)] of the cleanup. *)
Fixpoint url_set (l : list string) (index : nat) (url : string)
    : list string :=
  match l, index with
  | [], O => [url]
  | [], S i => ""%string :: url_set [] i url
  | _ :: rest, O => url :: rest
  | entry :: rest, S i => entry :: url_set rest i url
  end.

Definition setUrl (index : nat) (url : string) (m : UrlManager)
    : UrlManager :=
  let current := urlAt (urls m) index in
  let m :=
    if truthy current
    then mkUrls (urls m) (revokedUrls m ++ [current])
    else m in
  mkUrls (url_set (urls m) index url) (revokedUrls m).

(** The cleanup returned by the hook's effect, run at unmount:
    [urls.forEach(url => { if (url) URL.revokeObjectURL(url); })]. *)
Definition revokeAll (m : UrlManager) : UrlManager :=
  fold_left
    (fun m url =>
       if truthy url then mkUrls (urls m) (revokedUrls m ++ [url]) else m)
    (urls m) m.

End ObjectUrls.
Export ObjectUrls.

(** ** Vocabulary of the properties

    Derived notions used to state the properties, and the sample inputs
    they are exercised on. *)

(** A mounted engine over a container of the given size. *)
Definition mountedEngine (rectWidth rectHeight : R) : Engine :=
  resize rectWidth rectHeight 2 (ensureContext initialEngine).

Definition sampleImage (src : string) : HTMLImageElement :=
  mkImage src 640 480.

Definition bothLoaded : Props :=
  mkProps [Some (sampleImage "a.png"); Some (sampleImage "b.png")] 1400
    generateFeatherSeeds.

Definition secondMissing : Props :=
  mkProps [Some (sampleImage "a.png"); None] 1400 generateFeatherSeeds.

Definition nextIndexOf (index : nat) : nat :=
  match index with O => 1%nat | _ => 0%nat end.

Definition onlyCtx (s s' : Engine) : Prop :=
  exists c : option Ctx, s' = set_ctxRef c s.

(** The run-start timestamp a tick works with, and the progress it draws. *)
Definition startOf (timestamp : R) (s : Engine) : R :=
  if Req_dec_T (startTimestampRef s) 0 then timestamp else startTimestampRef s.

Definition progressAt (r : Render) (timestamp : R) (s : Engine) : R :=
  clamp01 ((timestamp - startOf timestamp s) / r_duration r).

Definition isSlotIndex (i : nat) : Prop := i = 0%nat \/ i = 1%nat.

Definition wellFormedPair (t : TransitionState) : Prop :=
  tr_from t <> tr_to t /\ isSlotIndex (tr_from t) /\ isSlotIndex (tr_to t).

Definition schedulerInv (s : Engine) : Prop :=
  isSlotIndex (activeIndex s) /\ wellFormedPair (transitionRef s).

(** An engine at rest: no run in flight and no tick pending. *)
Definition Idle (s : Engine) : Prop :=
  isAnimatingRef s = false /\ rafQueue s = [] /\ startTimestampRef s = 0.

(** One trigger carried to its end: the click, a first display frame at
    [t0], and a frame one full duration later. *)
Definition completedRun (p : Props) (t0 : R) (s : Engine) : Engine :=
  run [Click p; Frame t0; Frame (t0 + p_duration p)] s.

Definition completedRuns (p : Props) (starts : list R) (s : Engine) : Engine :=
  fold_left (fun s t0 => completedRun p t0 s) starts s.

(** The schedule used against C1: the page mounts with the default
    sources, slot 0 is then pointed at source A and, before anything has
    loaded, at source B. *)
Definition sourceA : string := "blob:A".

Definition sourceB : string := "blob:B".

Definition twiceReplaced : AssetState :=
  useLoadedImages_effect [sourceB; "/default-second.svg"%string]
    (useLoadedImages_effect [sourceA; "/default-second.svg"%string]
       (useLoadedImages_effect DEFAULT_SOURCES initialAssets)).

(** The fade of a seed at a given progress, as [drawFeathers] computes it. *)
Definition fadeOf (progress : R) (seed : FeatherSeed) : R :=
  1 - clamp01 ((progress - delay seed) / 0.75).

Definition isDrawn (progress : R) (seed : FeatherSeed) : Prop :=
  0 < (progress - delay seed) / 0.75 /\ 0.01 < fadeOf progress seed.

(** The cleanup of the mount effect of [useTransitionCanvas]: the resize
    listener is removed and [cancelAnimation()] is called. *)
Definition unmount (s : Engine) : Engine := cancelAnimation s.

(** The vertices a traced path visits, in order. *)
Fixpoint pathVertices (ops : list CanvasOp) : list Point :=
  match ops with
  | [] => []
  | MoveTo x y :: rest => mkPoint x y :: pathVertices rest
  | LineTo x y :: rest => mkPoint x y :: pathVertices rest
  | _ :: rest => pathVertices rest
  end.

(** Calls that alter what [save] and [restore] keep: the clip, the
    transform, the fill style, the opacity and the compositing mode. *)
Definition changesState (op : CanvasOp) : bool :=
  match op with
  | Clip | Translate _ _ | Rotate _ | Scale _ _ | ResetTransform
  | SetFillStyle _ | SetGlobalAlpha _ | SetGlobalCompositeOperation _
  | SetCanvasSize _ _ => true
  | _ => false
  end.

(** Walk a sequence of calls from a given [save] depth: the result is the
    depth reached, or nothing if a [restore] had no matching [save] or a
    state-changing call was made outside every [save]. *)
Fixpoint scopedFrom (depth : nat) (ops : list CanvasOp) : option nat :=
  match ops with
  | [] => Some depth
  | Save :: rest => scopedFrom (S depth) rest
  | Restore :: rest =>
      match depth with
      | O => None
      | S d => scopedFrom d rest
      end
  | op :: rest =>
      if changesState op && Nat.eqb depth 0 then None
      else scopedFrom depth rest
  end.

(** The rectangle painted by a call covers the viewport. *)
Definition coversViewport (width height : R) (op : CanvasOp) : Prop :=
  match op with
  | FillRect x y w h | DrawImage _ x y w h =>
      x <= 0 /\ y <= 0 /\ width <= x + w /\ height <= y + h
  | _ => False
  end.

(** The loads started by one run of the effect, each completed with the
    decoded size the host reports for its source. *)
Definition completeAll (size : string -> R * R) (loads : list Load)
    (st : AssetState) : AssetState :=
  fold_left
    (fun st l => onload l (fst (size (load_src l))) (snd (size (load_src l))) st)
    loads st.

Definition loadsOf (sources : list string) : list Load :=
  map (fun entry => mkLoad (fst entry) (snd entry)) (indexed sources).

(** What holds of the scheduler between events. *)
Definition tickInv (s : Engine) : Prop :=
  isAnimating s = isAnimatingRef s /\
  if isAnimatingRef s
  then
    (exists (h : nat) (r : Render),
      rafQueue s = [(S h, r)] /\
      animationFrameRef s = Some (S h) /\
      activeIndex s = tr_from (transitionRef s) /\
      r_activeIndex r = tr_from (transitionRef s) /\
      slot (r_images r) (tr_from (transitionRef s)) <> None /\
      slot (r_images r) (tr_to (transitionRef s)) <> None)
    \/ (rafQueue s = [] /\ animationFrameRef s = None)
  else rafQueue s = [] /\ startTimestampRef s = 0.

(** A run whose tick was cancelled: still flagged as running, nothing
    pending. *)
Definition stalled (s : Engine) : Prop :=
  isAnimatingRef s = true /\ rafQueue s = [] /\ animationFrameRef s = None.

(** The calls issued so far on the context, if there is one. *)
Definition issued (s : Engine) : list CanvasOp :=
  match ctxRef s with
  | Some ctx => ctx
  | None => []
  end.

(** The calls by which [resize] sizes the backing store and sets the
    scale; none of them paints. *)
Definition isSizingOp (op : CanvasOp) : bool :=
  match op with
  | SetCanvasSize _ _ | ResetTransform | Scale _ _ => true
  | _ => false
  end.

(** The three calls of [resize] for a measured size and a pixel ratio. *)
Definition sizingOps (rectWidth rectHeight dpr : R) : list CanvasOp :=
  [ SetCanvasSize (Rmax 1 (round (rectWidth * dpr)))
                  (Rmax 1 (round (rectHeight * dpr)));
    ResetTransform;
    Scale dpr dpr ].

(** A sequence of [setUrl] calls. *)
Definition setUrls (calls : list (nat * string)) (m : UrlManager)
    : UrlManager :=
  fold_left (fun m call => setUrl (fst call) (snd call) m) calls m.

Definition liveUrls (m : UrlManager) : list string :=
  filter truthy (urls m).


(** Everything in the engine except the context and the viewport. *)
Definition schedulerFields (s : Engine) :=
  (activeIndex s, isAnimating s, animationFrameRef s, startTimestampRef s,
   transitionRef s, isAnimatingRef s, rafCounter s, rafQueue s).

(** A run in flight that was started by render [r] from slot [a] and whose
    first tick came at [t0]. *)
Definition midRun (r : Render) (t0 : R) (a : nat) (s : Engine) : Prop :=
  isAnimatingRef s = true /\
  (exists h : nat, rafQueue s = [(h, r)]) /\
  startTimestampRef s = t0 /\
  transitionRef s = mkTransition a (nextIndexOf a) /\
  activeIndex s = a.

(** The calls of one transition frame, layer by layer. *)
Definition frameLayers (fromImage toImage : HTMLImageElement)
    (seeds : list FeatherSeed) (progress width height : R)
    : list CanvasOp :=
  let geometry := computeRavenGeometry width height progress in
  let path := traceRavenPath (points geometry) in
  [ClearRect 0 0 width height]
  ++ drawCoverImage fromImage width height
  ++ [Save] ++ path ++ [Clip]
  ++ drawCoverImage toImage width height
  ++ [Restore]
  ++ [Save] ++ path
  ++ [ SetFillStyle (ravenGradient geometry);
       SetGlobalAlpha (0.75 + 0.15 * (1 - progress));
       Fill;
       Restore ]
  ++ drawFeathers seeds progress width height geometry.

(** * Properties *)

(** ** Easing *)

Section EasingFacts.

Lemma easeInOutCubic_low (t : R) : t < 0.5 -> easeInOutCubic t = 4 * t * t * t.
Proof.
  intros Ht. unfold easeInOutCubic.
  destruct (Rlt_dec t 0.5); [reflexivity | contradiction].
Qed.

Lemma easeInOutCubic_high (t : R) :
  0.5 <= t -> easeInOutCubic t = 1 - (-2 * t + 2) ^ 3 / 2.
Proof.
  intros Ht. unfold easeInOutCubic.
  destruct (Rlt_dec t 0.5); [lra | reflexivity].
Qed.

Lemma easeInOutCubic_0 : easeInOutCubic 0 = 0.
Proof. rewrite easeInOutCubic_low; lra. Qed.

Lemma easeInOutCubic_1 : easeInOutCubic 1 = 1.
Proof. rewrite easeInOutCubic_high; lra. Qed.

Lemma cube_monotone (a b : R) : a <= b -> a * a * a <= b * b * b.
Proof.
  intros Hab.
  set (q := Rsqr (a + b / 2) + 3 / 4 * Rsqr b).
  assert (H : b * b * b - a * a * a = (b - a) * q)
    by (unfold q, Rsqr; field).
  assert (Hq : 0 <= q).
  { pose proof (Rle_0_sqr (a + b / 2)). pose proof (Rle_0_sqr b).
    unfold q. lra. }
  pose proof (Rmult_le_pos (b - a) q ltac:(lra) Hq).
  lra.
Qed.

Lemma easeInOutCubic_monotone (s t : R) :
  0 <= s -> s <= t -> t <= 1 -> easeInOutCubic s <= easeInOutCubic t.
Proof.
  intros Hs Hst Ht.
  destruct (Rlt_dec t 0.5) as [Htl | Hth].
  - rewrite !easeInOutCubic_low by lra.
    pose proof (cube_monotone s t Hst). lra.
  - destruct (Rlt_dec s 0.5) as [Hsl | Hsh].
    + rewrite (easeInOutCubic_low s) by lra.
      rewrite (easeInOutCubic_high t) by lra.
      pose proof (cube_monotone s 0.5 ltac:(lra)).
      pose proof (cube_monotone (-2 * t + 2) 1 ltac:(lra)).
      simpl. lra.
    + rewrite !easeInOutCubic_high by lra.
      pose proof (cube_monotone (-2 * t + 2) (-2 * s + 2) ltac:(lra)).
      simpl. lra.
Qed.

Lemma easeOutQuart_monotone (s t : R) :
  0 <= s -> s <= t -> t <= 1 -> easeOutQuart s <= easeOutQuart t.
Proof.
  intros Hs Hst Ht. unfold easeOutQuart.
  assert (Hsq : (1 - t) * (1 - t) <= (1 - s) * (1 - s)) by nra.
  assert (H0 : 0 <= (1 - t) * (1 - t)) by nra.
  assert (Hq : ((1 - t) * (1 - t)) * ((1 - t) * (1 - t))
               <= ((1 - s) * (1 - s)) * ((1 - s) * (1 - s))) by nra.
  simpl. lra.
Qed.

End EasingFacts.

(** C5: both easing curves start at 0, end at 1, and never decrease on the
    unit interval: for [0 <= s <= t <= 1], [easeInOutCubic s <=
    easeInOutCubic t] and [easeOutQuart s <= easeOutQuart t]. *)
Theorem easing_endpoints_and_monotone (s t : R) :
  0 <= s -> s <= t -> t <= 1 ->
  easeInOutCubic 0 = 0 /\ easeInOutCubic 1 = 1 /\
  easeOutQuart 0 = 0 /\ easeOutQuart 1 = 1 /\
  easeInOutCubic s <= easeInOutCubic t /\
  easeOutQuart s <= easeOutQuart t.
Proof.
  intros Hs Hst Ht.
  split; [apply easeInOutCubic_0 |].
  split; [apply easeInOutCubic_1 |].
  split; [unfold easeOutQuart; simpl; lra |].
  split; [unfold easeOutQuart; simpl; lra |].
  split.
  - now apply easeInOutCubic_monotone.
  - now apply easeOutQuart_monotone.
Qed.

Lemma easing_endpoints_and_monotone_witness :
  easeInOutCubic 0 = 0 /\ easeInOutCubic 1 = 1 /\
  easeOutQuart 0 = 0 /\ easeOutQuart 1 = 1 /\
  easeInOutCubic 0.25 <= easeInOutCubic 0.75 /\
  easeOutQuart 0.25 <= easeOutQuart 0.75.
Proof.
  apply (easing_endpoints_and_monotone 0.25 0.75); lra.
Defined.

(** ** Geometry *)

(** C6: the silhouette's horizontal travel.  Between progress 0 and
    progress 1 the geometry's [offsetX] grows by [w + 0.85 * shapeWidth],
    where [shapeWidth = 1.32 * min(w, h)], for every width and height. *)
Theorem geometry_horizontal_travel (w h : R) :
  shapeWidth (computeRavenGeometry w h 0) = 1.32 * Rmin w h /\
  shapeWidth (computeRavenGeometry w h 1) = 1.32 * Rmin w h /\
  offsetX (computeRavenGeometry w h 1) - offsetX (computeRavenGeometry w h 0)
  = w + 0.85 * (1.32 * Rmin w h).
Proof.
  unfold computeRavenGeometry; cbn [shapeWidth offsetX].
  rewrite easeInOutCubic_0, easeInOutCubic_1.
  repeat split; lra.
Qed.

(** C7: whatever the viewport and the progress, the polygon has 25 points,
    and its i-th point is the placement of the i-th authored control point:
    the list is [RAVEN_POINTS] mapped, in order, through one placement
    function built from the geometry's own offsets, sizes and eased
    progress. *)
Theorem geometry_points_count_and_order (w h progress : R) :
  let g := computeRavenGeometry w h progress in
  let place :=
    placePoint (offsetX g) (offsetY g) (shapeWidth g) (shapeHeight g)
      ((eased g - 0.5) * 0.55) (sin (eased g * PI) * 0.18) in
  List.length (points g) = 25%nat /\
  List.length RAVEN_POINTS = 25%nat /\
  points g = map place RAVEN_POINTS /\
  forall i : nat,
    nth_error (points g) i = option_map place (nth_error RAVEN_POINTS i).
Proof.
  intros g place.
  assert (Hmap : points g = map place RAVEN_POINTS) by reflexivity.
  split; [rewrite Hmap, length_map; reflexivity |].
  split; [reflexivity |].
  split; [exact Hmap |].
  intros i. rewrite Hmap. apply nth_error_map.
Qed.

(** ** Feather seeds *)

Lemma nth_error_seq_lt (n start i : nat) :
  (i < n)%nat -> nth_error (seq start n) i = Some (start + i)%nat.
Proof.
  revert start i.
  induction n as [| n IH]; intros start i Hi; [lia |].
  destruct i as [| i]; simpl.
  - f_equal. lia.
  - rewrite IH by lia. f_equal. lia.
Qed.

Lemma featherSeedAt_bounds (idx : nat) :
  -0.45 <= seedOffsetY (featherSeedAt idx) <= 0.45 /\
  0.55 <= sizeScale (featherSeedAt idx) <= 1.2.
Proof.
  unfold featherSeedAt; cbn [seedOffsetY sizeScale].
  pose proof (COS_bound ((INR idx + 1) * 37 * 0.77)) as Hc.
  pose proof (SIN_bound ((INR idx + 1) * 37 * 1.3)) as Hs.
  lra.
Qed.

(** C8: the generator yields exactly 18 seeds; the seed at [idx] is computed
    from [(idx + 1) * 37], its [offsetY] lies in [-0.45, 0.45], its
    [sizeScale] in [0.55, 1.2], its [delay] is [(idx mod 6) * 0.05]; and
    asking again from the memo cell left by an earlier call returns the
    same 18 seeds. *)
Theorem feather_seeds_generated_once (idx : nat) :
  (idx < 18)%nat ->
  let seeds := fst (useFeatherSeeds None) in
  let cell := snd (useFeatherSeeds None) in
  let seed := (INR idx + 1) * 37 in
  List.length seeds = 18%nat /\
  (exists f : FeatherSeed,
      nth_error seeds idx = Some f /\
      seedOffsetY f = (cos (seed * 0.77) + 1) / 2 * 0.9 - 0.45 /\
      sizeScale f = 0.55 + (sin (seed * 1.3) + 1) / 2 * 0.65 /\
      sway f = sin (seed * 0.61) * 0.9 /\
      delay f = INR (idx mod 6) * 0.05 /\
      -0.45 <= seedOffsetY f <= 0.45 /\
      0.55 <= sizeScale f <= 1.2) /\
  useFeatherSeeds cell = (seeds, cell) /\
  (forall cell0 : MemoCell (list FeatherSeed),
      fst (useFeatherSeeds (snd (useFeatherSeeds cell0)))
      = fst (useFeatherSeeds cell0)).
Proof.
  intros Hidx seeds cell seed.
  split; [reflexivity |].
  split.
  - exists (featherSeedAt idx).
    split.
    { unfold seeds, useFeatherSeeds, useMemo0, generateFeatherSeeds.
      cbn [fst]. rewrite nth_error_map, nth_error_seq_lt by exact Hidx.
      reflexivity. }
    pose proof (featherSeedAt_bounds idx) as [Hy Hs].
    repeat split; try reflexivity; lra.
  - split; [reflexivity |].
    intros [v |]; reflexivity.
Qed.

Lemma feather_seeds_generated_once_witness :
  let seeds := fst (useFeatherSeeds None) in
  let cell := snd (useFeatherSeeds None) in
  let seed := (INR 7 + 1) * 37 in
  List.length seeds = 18%nat /\
  (exists f : FeatherSeed,
      nth_error seeds 7 = Some f /\
      seedOffsetY f = (cos (seed * 0.77) + 1) / 2 * 0.9 - 0.45 /\
      sizeScale f = 0.55 + (sin (seed * 1.3) + 1) / 2 * 0.65 /\
      sway f = sin (seed * 0.61) * 0.9 /\
      delay f = INR (7 mod 6) * 0.05 /\
      -0.45 <= seedOffsetY f <= 0.45 /\
      0.55 <= sizeScale f <= 1.2) /\
  useFeatherSeeds cell = (seeds, cell) /\
  (forall cell0 : MemoCell (list FeatherSeed),
      fst (useFeatherSeeds (snd (useFeatherSeeds cell0)))
      = fst (useFeatherSeeds cell0)).
Proof.
  apply (feather_seeds_generated_once 7). lia.
Defined.

(** ** Compositor guards *)

Section DrawGuards.

Variables (r : Render) (s : Engine).

Lemma drawStatic_zero_viewport :
  vp_width (viewportRef s) = 0 \/ vp_height (viewportRef s) = 0 ->
  drawStatic r s = s.
Proof.
  intros Hzero. unfold drawStatic.
  destruct (ctxRef s); [| reflexivity].
  destruct (Req_dec_T (vp_width (viewportRef s)) 0); [reflexivity |].
  destruct (Req_dec_T (vp_height (viewportRef s)) 0); [reflexivity |].
  tauto.
Qed.

Lemma drawFrame_zero_viewport (progress : R) :
  vp_width (viewportRef s) = 0 \/ vp_height (viewportRef s) = 0 ->
  drawFrame r progress s = s.
Proof.
  intros Hzero. unfold drawFrame.
  destruct (ctxRef s); [| reflexivity].
  destruct (Req_dec_T (vp_width (viewportRef s)) 0); [reflexivity |].
  destruct (Req_dec_T (vp_height (viewportRef s)) 0); [reflexivity |].
  tauto.
Qed.

Lemma drawFrame_absent_image (progress : R) :
  slot (r_images r) (tr_from (transitionRef s)) = None \/
  slot (r_images r) (tr_to (transitionRef s)) = None ->
  drawFrame r progress s = s.
Proof.
  intros Habsent. unfold drawFrame.
  destruct (ctxRef s); [| reflexivity].
  destruct (Req_dec_T (vp_width (viewportRef s)) 0); [reflexivity |].
  destruct (Req_dec_T (vp_height (viewportRef s)) 0); [reflexivity |].
  destruct Habsent as [H | H]; rewrite H; [reflexivity |].
  destruct (slot (r_images r) (tr_from (transitionRef s))); reflexivity.
Qed.

End DrawGuards.

(** C9: with a viewport of zero width or zero height, the static draw and
    the transition-frame draw both leave the whole engine state, and so the
    drawing surface, exactly as it was, for every progress and whatever the
    image slots hold; both are total functions, so nothing is raised. *)
Theorem zero_viewport_suppresses_drawing
    (r : Render) (progress : R) (s : Engine) :
  vp_width (viewportRef s) = 0 \/ vp_height (viewportRef s) = 0 ->
  drawStatic r s = s /\ drawFrame r progress s = s /\
  ctxRef (drawStatic r s) = ctxRef s /\
  ctxRef (drawFrame r progress s) = ctxRef s.
Proof.
  intros Hzero.
  rewrite drawStatic_zero_viewport, drawFrame_zero_viewport by exact Hzero.
  repeat split.
Qed.

Lemma zero_viewport_suppresses_drawing_witness :
  let s := mountedEngine 0 300 in
  let r := currentRender bothLoaded s in
  drawStatic r s = s /\ drawFrame r 0.5 s = s /\
  ctxRef (drawStatic r s) = ctxRef s /\
  ctxRef (drawFrame r 0.5 s) = ctxRef s.
Proof.
  intros s r.
  apply (zero_viewport_suppresses_drawing r 0.5 s).
  left. reflexivity.
Defined.

(** ** Scheduler *)

Lemma startTransition_running (r : Render) (s : Engine) :
  isAnimatingRef s = true -> startTransition r s = s.
Proof. intros H. unfold startTransition. rewrite H. reflexivity. Qed.

Lemma startTransition_unresolved (r : Render) (s : Engine) :
  slot (r_images r) (r_activeIndex r) = None \/
  slot (r_images r) (nextIndexOf (r_activeIndex r)) = None ->
  startTransition r s = s.
Proof.
  intros H. unfold startTransition, nextIndexOf in *.
  destruct (isAnimatingRef s); [reflexivity |].
  destruct H as [H | H]; rewrite H; [reflexivity |].
  destruct (slot (r_images r) (r_activeIndex r)); reflexivity.
Qed.

Lemma cancelAnimation_fields (s : Engine) :
  activeIndex (cancelAnimation s) = activeIndex s /\
  isAnimating (cancelAnimation s) = isAnimating s /\
  transitionRef (cancelAnimation s) = transitionRef s /\
  isAnimatingRef (cancelAnimation s) = isAnimatingRef s /\
  startTimestampRef (cancelAnimation s) = startTimestampRef s /\
  ctxRef (cancelAnimation s) = ctxRef s /\
  viewportRef (cancelAnimation s) = viewportRef s.
Proof.
  unfold cancelAnimation.
  destruct (animationFrameRef s) as [[| h] |]; repeat split.
Qed.

Lemma startTransition_starts (r : Render) (s : Engine) (a b : HTMLImageElement) :
  isAnimatingRef s = false ->
  slot (r_images r) (r_activeIndex r) = Some a ->
  slot (r_images r) (nextIndexOf (r_activeIndex r)) = Some b ->
  isAnimatingRef (startTransition r s) = true /\
  isAnimating (startTransition r s) = true /\
  transitionRef (startTransition r s)
  = mkTransition (r_activeIndex r) (nextIndexOf (r_activeIndex r)) /\
  activeIndex (startTransition r s) = activeIndex s.
Proof.
  intros Hidle Ha Hb. unfold startTransition, nextIndexOf in *.
  rewrite Hidle, Ha, Hb.
  match goal with
  | |- context [cancelAnimation ?x] =>
      pose proof (cancelAnimation_fields x) as (E1 & E2 & E3 & E4 & _);
      destruct (cancelAnimation x)
  end.
  cbn in *. subst. repeat split.
Qed.

(** C3: a start request returns the engine state unchanged when a run is
    already in flight, and also when the image of the active slot or of the
    other slot (the prospective from/to pair) is absent; from an idle engine
    with both images present it sets the running flags and records the pair;
    so an idle engine becomes running only if both images were present. *)
Theorem start_request_guard (r : Render) (s : Engine) :
  let fromIndex := r_activeIndex r in
  let toIndex := nextIndexOf (r_activeIndex r) in
  (isAnimatingRef s = true -> startTransition r s = s) /\
  (slot (r_images r) fromIndex = None \/ slot (r_images r) toIndex = None ->
   startTransition r s = s) /\
  (isAnimatingRef s = false ->
   slot (r_images r) fromIndex <> None ->
   slot (r_images r) toIndex <> None ->
   isAnimatingRef (startTransition r s) = true /\
   isAnimating (startTransition r s) = true /\
   transitionRef (startTransition r s) = mkTransition fromIndex toIndex /\
   activeIndex (startTransition r s) = activeIndex s) /\
  (isAnimatingRef s = false ->
   isAnimatingRef (startTransition r s) = true ->
   slot (r_images r) fromIndex <> None /\ slot (r_images r) toIndex <> None).
Proof.
  intros fromIndex toIndex.
  split; [apply startTransition_running |].
  split; [apply startTransition_unresolved |].
  split.
  - intros Hidle Hfrom Hto.
    destruct (slot (r_images r) fromIndex) as [a |] eqn:Ea; [| congruence].
    destruct (slot (r_images r) toIndex) as [b |] eqn:Eb; [| congruence].
    exact (startTransition_starts r s a b Hidle Ea Eb).
  - intros Hidle Hrun.
    destruct (slot (r_images r) fromIndex) eqn:Ea.
    + destruct (slot (r_images r) toIndex) eqn:Eb.
      * split; discriminate.
      * rewrite (startTransition_unresolved r s) in Hrun
          by (right; exact Eb).
        congruence.
    + rewrite (startTransition_unresolved r s) in Hrun by (left; exact Ea).
      congruence.
Qed.

Lemma start_request_guard_witness :
  let idle := mountedEngine 400 300 in
  let busy := set_isAnimatingRef true idle in
  let ready := currentRender bothLoaded idle in
  let unready := currentRender secondMissing idle in
  startTransition ready busy = busy /\
  startTransition unready idle = idle /\
  (isAnimatingRef (startTransition ready idle) = true /\
   isAnimating (startTransition ready idle) = true /\
   transitionRef (startTransition ready idle) = mkTransition 0 1 /\
   activeIndex (startTransition ready idle) = activeIndex idle).
Proof.
  intros idle busy ready unready.
  split; [| split].
  - apply (proj1 (start_request_guard ready busy)). reflexivity.
  - apply (proj1 (proj2 (start_request_guard unready idle))).
    right. reflexivity.
  - apply (proj1 (proj2 (proj2 (start_request_guard ready idle))));
      [reflexivity | discriminate | discriminate].
Defined.

(** *** What drawing can change *)

Lemma onlyCtx_refl (s : Engine) : onlyCtx s s.
Proof. exists (ctxRef s). destruct s; reflexivity. Qed.

Lemma onlyCtx_trans (s1 s2 s3 : Engine) :
  onlyCtx s1 s2 -> onlyCtx s2 s3 -> onlyCtx s1 s3.
Proof. intros [c ->] [c' ->]. exists c'. reflexivity. Qed.

Lemma emit_onlyCtx (ops : list CanvasOp) (s : Engine) : onlyCtx s (emit ops s).
Proof.
  unfold emit. destruct (ctxRef s) as [ctx |].
  - eexists; reflexivity.
  - apply onlyCtx_refl.
Qed.

Create HintDb draw.
#[local] Hint Resolve onlyCtx_refl emit_onlyCtx : draw.

Ltac chain_emit :=
  repeat first
    [ apply emit_onlyCtx
    | apply onlyCtx_refl
    | eapply onlyCtx_trans; [| apply emit_onlyCtx] ].

Lemma drawStatic_onlyCtx (r : Render) (s : Engine) : onlyCtx s (drawStatic r s).
Proof.
  unfold drawStatic.
  destruct (ctxRef s); auto with draw.
  destruct (Req_dec_T _ 0); auto with draw.
  destruct (Req_dec_T _ 0); auto with draw.
  destruct (slot _ _); chain_emit.
Qed.

Lemma drawFrame_onlyCtx (r : Render) (progress : R) (s : Engine) :
  onlyCtx s (drawFrame r progress s).
Proof.
  unfold drawFrame.
  destruct (ctxRef s); auto with draw.
  destruct (Req_dec_T _ 0); auto with draw.
  destruct (Req_dec_T _ 0); auto with draw.
  destruct (slot _ _); auto with draw.
  destruct (slot _ _); auto with draw.
  chain_emit.
Qed.

(** *** Ticks *)

Lemma animate_continues (r : Render) (timestamp : R) (s : Engine) :
  progressAt r timestamp s < 1 ->
  let s' := animate r timestamp s in
  activeIndex s' = activeIndex s /\
  isAnimatingRef s' = isAnimatingRef s /\
  transitionRef s' = transitionRef s /\
  startTimestampRef s' = startOf timestamp s /\
  rafQueue s' = rafQueue s ++ [(S (rafCounter s), r)].
Proof.
  unfold progressAt, startOf, animate. intros Hlt.
  destruct (Req_dec_T (startTimestampRef s) 0) as [E | E].
  - cbn [startTimestampRef set_startTimestampRef] in *.
    destruct (drawFrame_onlyCtx r
                (clamp01 ((timestamp - timestamp) / r_duration r))
                (set_startTimestampRef timestamp s)) as [c ->].
    destruct (Rlt_dec _ 1); [| contradiction].
    destruct s; cbn. repeat split.
  - destruct (drawFrame_onlyCtx r
                (clamp01 ((timestamp - startTimestampRef s) / r_duration r)) s)
      as [c ->].
    destruct (Rlt_dec _ 1); [| contradiction].
    destruct s; cbn. repeat split.
Qed.

Lemma animate_completes (r : Render) (timestamp : R) (s : Engine) :
  ~ progressAt r timestamp s < 1 ->
  let s' := animate r timestamp s in
  activeIndex s' = tr_to (transitionRef s) /\
  isAnimatingRef s' = false /\
  isAnimating s' = false /\
  transitionRef s' = transitionRef s /\
  startTimestampRef s' = 0 /\
  (rafQueue s = [] -> rafQueue s' = []).
Proof.
  unfold progressAt, startOf, animate. intros Hge.
  destruct (Req_dec_T (startTimestampRef s) 0) as [E | E].
  - cbn [startTimestampRef set_startTimestampRef] in *.
    destruct (drawFrame_onlyCtx r
                (clamp01 ((timestamp - timestamp) / r_duration r))
                (set_startTimestampRef timestamp s)) as [c ->].
    destruct (Rlt_dec _ 1); [contradiction |].
    match goal with
    | |- context [drawStatic r ?x] =>
        destruct (drawStatic_onlyCtx r x) as [c' ->]
    end.
    destruct s as [ai ia [[| h] |] st tr cx vp iar rc rq]; cbn;
      repeat split; intros ->; reflexivity.
  - destruct (drawFrame_onlyCtx r
                (clamp01 ((timestamp - startTimestampRef s) / r_duration r)) s)
      as [c ->].
    destruct (Rlt_dec _ 1); [contradiction |].
    match goal with
    | |- context [drawStatic r ?x] =>
        destruct (drawStatic_onlyCtx r x) as [c' ->]
    end.
    destruct s as [ai ia [[| h] |] st tr cx vp iar rc rq]; cbn;
      repeat split; intros ->; reflexivity.
Qed.

Lemma animate_transitionRef (r : Render) (timestamp : R) (s : Engine) :
  transitionRef (animate r timestamp s) = transitionRef s.
Proof.
  destruct (Rlt_dec (progressAt r timestamp s) 1) as [H | H].
  - apply (animate_continues r timestamp s H).
  - apply (animate_completes r timestamp s H).
Qed.

(** *** Invariant of the scheduler *)

Lemma schedulerInv_initial : schedulerInv initialEngine.
Proof. unfold schedulerInv, wellFormedPair, isSlotIndex; cbn. lia. Qed.

Lemma schedulerInv_fields (s s' : Engine) :
  activeIndex s' = activeIndex s ->
  transitionRef s' = transitionRef s ->
  schedulerInv s -> schedulerInv s'.
Proof. unfold schedulerInv. intros -> ->. tauto. Qed.

Lemma animate_inv (r : Render) (timestamp : R) (s : Engine) :
  schedulerInv s -> schedulerInv (animate r timestamp s).
Proof.
  intros Hinv.
  destruct (Rlt_dec (progressAt r timestamp s) 1) as [H | H].
  - destruct (animate_continues r timestamp s H) as (Ea & _ & Et & _).
    exact (schedulerInv_fields _ _ Ea Et Hinv).
  - destruct (animate_completes r timestamp s H) as (Ea & _ & _ & Et & _).
    unfold schedulerInv in *. rewrite Ea, Et.
    destruct Hinv as [_ Hpair]. split; [apply Hpair | exact Hpair].
Qed.

Lemma runCallbacks_inv (timestamp : R) (cbs : list (nat * Render)) :
  forall s : Engine,
    schedulerInv s ->
    schedulerInv (runCallbacks timestamp cbs s) /\
    transitionRef (runCallbacks timestamp cbs s) = transitionRef s.
Proof.
  induction cbs as [| [handle r] rest IH]; intros s Hinv; cbn.
  - split; [exact Hinv | reflexivity].
  - destruct (existsb _ (rafQueue s)); [| apply IH; exact Hinv].
    set (s1 := animate r timestamp (cancelAnimationFrame handle s)).
    assert (H1 : schedulerInv s1) by (apply animate_inv; exact Hinv).
    destruct (IH s1 H1) as [Hinv' Htr].
    split; [exact Hinv' |].
    rewrite Htr. unfold s1. rewrite animate_transitionRef. reflexivity.
Qed.

Lemma startTransition_inv (r : Render) (s : Engine) :
  r_activeIndex r = activeIndex s ->
  schedulerInv s -> schedulerInv (startTransition r s).
Proof.
  intros Hr Hinv.
  destruct (isAnimatingRef s) eqn:Erun.
  { rewrite startTransition_running by exact Erun. exact Hinv. }
  destruct (slot (r_images r) (r_activeIndex r)) as [a |] eqn:Ea.
  2:{ rewrite startTransition_unresolved by (left; exact Ea). exact Hinv. }
  destruct (slot (r_images r) (nextIndexOf (r_activeIndex r))) as [b |] eqn:Eb.
  2:{ rewrite startTransition_unresolved by (right; exact Eb). exact Hinv. }
  destruct (startTransition_starts r s a b Erun Ea Eb) as (_ & _ & Et & Eai).
  unfold schedulerInv, wellFormedPair, isSlotIndex in *.
  rewrite Et, Eai; cbn [tr_from tr_to]. rewrite Hr.
  destruct Hinv as [[H0 | H1] _]; [rewrite H0 | rewrite H1]; cbn; lia.
Qed.

Lemma resize_fields (w h dpr : R) (s : Engine) :
  activeIndex (resize w h dpr s) = activeIndex s /\
  transitionRef (resize w h dpr s) = transitionRef s /\
  isAnimatingRef (resize w h dpr s) = isAnimatingRef s.
Proof.
  unfold resize, ensureContext, emit.
  destruct s as [ai ia af st tr [cx |] vp iar rc rq]; cbn; repeat split.
Qed.

Lemma onlyCtx_fields (s s' : Engine) :
  onlyCtx s s' ->
  activeIndex s' = activeIndex s /\ transitionRef s' = transitionRef s.
Proof. intros [c ->]. split; reflexivity. Qed.

Lemma rendered_fields (p : Props) (w h dpr : R) (s : Engine) :
  activeIndex (rendered p w h dpr s) = activeIndex s /\
  transitionRef (rendered p w h dpr s) = transitionRef s /\
  isAnimatingRef (rendered p w h dpr s) = isAnimatingRef s.
Proof.
  unfold rendered.
  set (s1 := ensureContext (cancelAnimation s)).
  assert (H1 : activeIndex s1 = activeIndex s /\
               transitionRef s1 = transitionRef s /\
               isAnimatingRef s1 = isAnimatingRef s).
  { destruct (cancelAnimation_fields s) as (Ea & _ & Et & Er & _).
    unfold s1, ensureContext.
    destruct (ctxRef (cancelAnimation s)); cbn; auto. }
  destruct H1 as (Ea1 & Et1 & Er1).
  destruct (resize_fields w h dpr s1) as (Ea & Et & Er).
  destruct (isAnimatingRef (resize w h dpr s1)) eqn:E.
  - rewrite Ea, Et, Ea1, Et1, <- Er1, E. auto.
  - destruct (onlyCtx_fields _ _
                (drawStatic_onlyCtx (currentRender p s) (resize w h dpr s1)))
      as [Ea' Et'].
    destruct (drawStatic_onlyCtx (currentRender p s) (resize w h dpr s1))
      as [c Hc].
    rewrite Ea', Et', Ea, Et, Ea1, Et1.
    split; [reflexivity |]. split; [reflexivity |].
    rewrite Hc. unfold set_ctxRef; cbn [isAnimatingRef].
    rewrite <- Er1, <- Er. exact E.
Qed.

Lemma step_inv (s : Engine) (e : Event) :
  schedulerInv s -> schedulerInv (step s e).
Proof.
  intros Hinv. destruct e as [p | timestamp | p w h dpr | p w h dpr]; cbn.
  - apply startTransition_inv; [reflexivity | exact Hinv].
  - apply runCallbacks_inv. exact Hinv.
  - unfold handleResize.
    destruct (resize_fields w h dpr s) as (Ea & Et & _).
    pose proof (schedulerInv_fields _ _ Ea Et Hinv) as Hinv'.
    destruct (isAnimatingRef (resize w h dpr s)); [exact Hinv' |].
    destruct (onlyCtx_fields _ _
                (drawStatic_onlyCtx (currentRender p s) (resize w h dpr s)))
      as [Ea' Et'].
    exact (schedulerInv_fields _ _ Ea' Et' Hinv').
  - destruct (rendered_fields p w h dpr s) as (Ea & Et & _).
    exact (schedulerInv_fields _ _ Ea Et Hinv).
Qed.

Lemma run_inv (events : list Event) :
  forall s : Engine, schedulerInv s -> schedulerInv (run events s).
Proof.
  unfold run.
  induction events as [| e events IH]; intros s Hinv; cbn; [exact Hinv |].
  apply IH, step_inv, Hinv.
Qed.

Lemma step_running_keeps_pair (s : Engine) (e : Event) :
  schedulerInv s ->
  isAnimatingRef s = true ->
  transitionRef (step s e) = transitionRef s.
Proof.
  intros Hinv Hrun. destruct e as [p | timestamp | p w h dpr | p w h dpr]; cbn.
  - unfold click. rewrite startTransition_running by exact Hrun. reflexivity.
  - apply runCallbacks_inv. exact Hinv.
  - unfold handleResize.
    destruct (resize_fields w h dpr s) as (_ & Et & Er).
    rewrite Er, Hrun. exact Et.
  - apply (rendered_fields p w h dpr s).
Qed.

(** *** Completed runs *)

Lemma clamp01_0 : clamp01 0 = 0.
Proof.
  unfold clamp01, Rmax, Rmin.
  destruct (Rle_dec 1 0); destruct (Rle_dec 0 _); lra.
Qed.

Lemma clamp01_1 : clamp01 1 = 1.
Proof.
  unfold clamp01, Rmax, Rmin.
  destruct (Rle_dec 1 1); destruct (Rle_dec 0 _); lra.
Qed.

Lemma frame_single (timestamp : R) (handle : nat) (r : Render) (s : Engine) :
  rafQueue s = [(handle, r)] ->
  frame timestamp s = animate r timestamp (cancelAnimationFrame handle s) /\
  rafQueue (cancelAnimationFrame handle s) = [] /\
  activeIndex (cancelAnimationFrame handle s) = activeIndex s /\
  isAnimatingRef (cancelAnimationFrame handle s) = isAnimatingRef s /\
  transitionRef (cancelAnimationFrame handle s) = transitionRef s /\
  startTimestampRef (cancelAnimationFrame handle s) = startTimestampRef s /\
  rafCounter (cancelAnimationFrame handle s) = rafCounter s.
Proof.
  intros Hq. unfold frame. rewrite Hq. cbn [runCallbacks].
  rewrite Hq. cbn [existsb fst]. rewrite Nat.eqb_refl. cbn [orb].
  split; [reflexivity |].
  unfold cancelAnimationFrame; cbn. rewrite Hq; cbn.
  rewrite Nat.eqb_refl. cbn. repeat split.
Qed.

Lemma click_idle (p : Props) (s : Engine) (a b : HTMLImageElement) :
  Idle s ->
  slot (p_images p) (activeIndex s) = Some a ->
  slot (p_images p) (nextIndexOf (activeIndex s)) = Some b ->
  let s' := click p s in
  isAnimatingRef s' = true /\
  startTimestampRef s' = 0 /\
  transitionRef s' = mkTransition (activeIndex s) (nextIndexOf (activeIndex s)) /\
  activeIndex s' = activeIndex s /\
  rafQueue s' = [(S (rafCounter s), currentRender p s)].
Proof.
  intros (Hidle & Hq & Hst) Ha Hb.
  unfold click, startTransition, nextIndexOf in *.
  cbn [currentRender r_images r_activeIndex] in *.
  rewrite Hidle, Ha, Hb.
  destruct s as [ai ia [[| h] |] st tr cx vp iar rc rq];
    cbn in *; subst; cbn; repeat split.
Qed.

Lemma completedRun_flips (p : Props) (t0 : R) (s : Engine)
    (a b : HTMLImageElement) :
  Idle s ->
  slot (p_images p) (activeIndex s) = Some a ->
  slot (p_images p) (nextIndexOf (activeIndex s)) = Some b ->
  0 < p_duration p ->
  t0 <> 0 ->
  Idle (completedRun p t0 s) /\
  activeIndex (completedRun p t0 s) = nextIndexOf (activeIndex s).
Proof.
  intros Hidle Ha Hb Hd Ht0.
  unfold completedRun, run; cbn [fold_left step].
  destruct (click_idle p s a b Hidle Ha Hb) as (Hr1 & Hs1 & Ht1 & Ha1 & Hq1).
  set (s1 := click p s) in *.
  set (r := currentRender p s) in *.
  assert (Hdur : r_duration r = p_duration p) by reflexivity.
  (* first frame: progress 0, the tick re-schedules itself *)
  destruct (frame_single t0 _ _ _ Hq1) as (-> & Hq1' & Ha1' & Hr1' & Ht1' & Hs1' & _).
  set (s1' := cancelAnimationFrame (S (rafCounter s)) s1) in *.
  assert (Hp1 : progressAt r t0 s1' < 1).
  { unfold progressAt, startOf. rewrite Hs1', Hs1.
    destruct (Req_dec_T 0 0) as [_ | N]; [| contradiction].
    replace ((t0 - t0) / r_duration r) with 0 by (unfold Rdiv; ring).
    rewrite clamp01_0. lra. }
  destruct (animate_continues r t0 s1' Hp1) as (Ha2 & Hr2 & Ht2 & Hs2 & Hq2).
  set (s2 := animate r t0 s1') in *.
  rewrite Hq1' in Hq2. cbn [app] in Hq2.
  assert (Hst2 : startTimestampRef s2 = t0).
  { rewrite Hs2. unfold startOf. rewrite Hs1', Hs1.
    destruct (Req_dec_T 0 0) as [_ | N]; [reflexivity | contradiction]. }
  (* second frame: progress 1, the run completes *)
  destruct (frame_single (t0 + p_duration p) _ _ _ Hq2)
    as (-> & Hq2' & Ha2' & Hr2' & Ht2' & Hs2' & _).
  set (s2' := cancelAnimationFrame (S (rafCounter s1')) s2) in *.
  assert (Hp2 : ~ progressAt r (t0 + p_duration p) s2' < 1).
  { unfold progressAt, startOf. rewrite Hs2', Hst2.
    destruct (Req_dec_T t0 0) as [E | _]; [contradiction |].
    rewrite Hdur.
    replace ((t0 + p_duration p - t0) / p_duration p) with 1 by (field; lra).
    rewrite clamp01_1. lra. }
  destruct (animate_completes r (t0 + p_duration p) s2' Hp2)
    as (Ha3 & Hr3 & _ & _ & Hs3 & Hq3).
  split.
  - unfold Idle. auto.
  - rewrite Ha3, Ht2', Ht2, Ht1', Ht1. reflexivity.
Qed.

Lemma nextIndexOf_slot (i : nat) :
  isSlotIndex i -> isSlotIndex (nextIndexOf i) /\ nextIndexOf (nextIndexOf i) = i.
Proof. unfold isSlotIndex. intros [-> | ->]; cbn; lia. Qed.

Lemma completedRuns_alternate (p : Props) (a b : HTMLImageElement)
    (starts : list R) :
  slot (p_images p) 0 = Some a ->
  slot (p_images p) 1 = Some b ->
  0 < p_duration p ->
  Forall (fun t0 => t0 <> 0) starts ->
  forall s : Engine,
    Idle s -> isSlotIndex (activeIndex s) ->
    Idle (completedRuns p starts s) /\
    activeIndex (completedRuns p starts s)
    = (if Nat.even (List.length starts)
       then activeIndex s else nextIndexOf (activeIndex s)).
Proof.
  intros Ha Hb Hd Hstarts.
  induction Hstarts as [| t0 starts Ht0 _ IH]; intros s Hidle Hai.
  - cbn. split; [exact Hidle | reflexivity].
  - unfold completedRuns in *. cbn [fold_left].
    assert (Hflip : Idle (completedRun p t0 s) /\
                    activeIndex (completedRun p t0 s)
                    = nextIndexOf (activeIndex s)).
    { destruct Hai as [E | E].
      - apply (completedRun_flips p t0 s a b); rewrite ?E; cbn; auto.
      - apply (completedRun_flips p t0 s b a); rewrite ?E; cbn; auto. }
    destruct Hflip as [Hidle' Hai'].
    destruct (nextIndexOf_slot _ Hai) as [Hslot Hinvol].
    destruct (IH (completedRun p t0 s) Hidle'
                ltac:(rewrite Hai'; exact Hslot)) as [Hidle'' Hres].
    split; [exact Hidle'' |].
    rewrite Hres, Hai', Hinvol.
    cbn [List.length]. rewrite Nat.even_succ, <- Nat.negb_even.
    destruct (Nat.even (List.length starts)); reflexivity.
Qed.

Lemma even_mod2 (n : nat) :
  (if Nat.even n then 0%nat else 1%nat) = (n mod 2)%nat.
Proof.
  destruct (Nat.even n) eqn:E.
  - apply Nat.even_spec in E. destruct E as [k ->].
    symmetry. rewrite Nat.mul_comm. apply Nat.Div0.mod_mul.
  - assert (O : Nat.odd n = true) by (rewrite <- Nat.negb_even, E; reflexivity).
    apply Nat.odd_spec in O. destruct O as [k ->].
    symmetry. rewrite Nat.add_comm, Nat.mul_comm, Nat.Div0.mod_add.
    reflexivity.
Qed.

(** C4: in every state the engine can reach, the recorded pair has
    [from <> to] with both indices 0 or 1, and [activeIndex] is 0 or 1; the
    pair is written by a start and by nothing else (no event changes it
    while a run is in flight, and a tick never changes it); the tick whose
    progress is no longer below 1 sets [activeIndex] to the pair's [to] and
    ends the run; hence, with both images present, [n] triggers each carried
    to completion take [activeIndex] from 0 to [n mod 2]: 0, 1, 0, 1, ... *)
Theorem transition_pair_and_alternation
    (events : list Event) (e : Event) (r : Render) (timestamp : R)
    (p : Props) (starts : list R) (s0 : Engine) :
  let s := run events initialEngine in
  (tr_from (transitionRef s) <> tr_to (transitionRef s) /\
   (tr_from (transitionRef s) = 0 \/ tr_from (transitionRef s) = 1)%nat /\
   (tr_to (transitionRef s) = 0 \/ tr_to (transitionRef s) = 1)%nat /\
   (activeIndex s = 0 \/ activeIndex s = 1)%nat) /\
  (isAnimatingRef s = true -> transitionRef (step s e) = transitionRef s) /\
  transitionRef (animate r timestamp s) = transitionRef s /\
  (~ progressAt r timestamp s < 1 ->
   activeIndex (animate r timestamp s) = tr_to (transitionRef s) /\
   isAnimatingRef (animate r timestamp s) = false) /\
  (slot (p_images p) 0 <> None ->
   slot (p_images p) 1 <> None ->
   0 < p_duration p ->
   Forall (fun t0 => t0 <> 0) starts ->
   Idle s0 ->
   activeIndex s0 = 0%nat ->
   activeIndex (completedRuns p starts s0) = (List.length starts mod 2)%nat).
Proof.
  intros s.
  assert (Hinv : schedulerInv s) by (apply run_inv, schedulerInv_initial).
  split; [| split; [| split; [| split]]].
  - destruct Hinv as [Hai (Hne & Hf & Ht)]. auto.
  - apply step_running_keeps_pair. exact Hinv.
  - apply animate_transitionRef.
  - intros Hdone.
    destruct (animate_completes r timestamp s Hdone) as (Ea & Er & _).
    split; assumption.
  - intros H0 H1 Hd Hstarts Hidle Hai.
    destruct (slot (p_images p) 0) as [a |] eqn:Ea; [| congruence].
    destruct (slot (p_images p) 1) as [b |] eqn:Eb; [| congruence].
    destruct (completedRuns_alternate p a b starts Ea Eb Hd Hstarts s0 Hidle
                ltac:(left; exact Hai)) as [_ Hres].
    rewrite Hres, Hai, <- even_mod2. cbn [nextIndexOf].
    reflexivity.
Qed.

Lemma sampleMidRun_facts :
  let s := run [Click bothLoaded; Frame 16] initialEngine in
  isAnimatingRef s = true /\ startTimestampRef s = 16.
Proof.
  cbv zeta. unfold run; cbn [fold_left step].
  assert (Hidle : Idle initialEngine) by (repeat split).
  destruct (click_idle bothLoaded initialEngine
              (sampleImage "a.png") (sampleImage "b.png")
              Hidle eq_refl eq_refl) as (Hr1 & Hs1 & _ & _ & Hq1).
  destruct (frame_single 16 _ _ _ Hq1) as (-> & _ & _ & Hr1' & _ & Hs1' & _).
  set (r := currentRender bothLoaded initialEngine) in *.
  set (s1' := cancelAnimationFrame _ _) in *.
  assert (Hstart : startOf 16 s1' = 16).
  { unfold startOf. rewrite Hs1', Hs1.
    destruct (Req_dec_T 0 0); [reflexivity | contradiction]. }
  assert (Hp : progressAt r 16 s1' < 1).
  { unfold progressAt. rewrite Hstart.
    replace ((16 - 16) / r_duration r) with 0 by (unfold Rdiv; ring).
    rewrite clamp01_0. lra. }
  destruct (animate_continues r 16 s1' Hp) as (_ & Hr2 & _ & Hs2 & _).
  split; [rewrite Hr2, Hr1'; exact Hr1 | rewrite Hs2; exact Hstart].
Qed.

Lemma transition_pair_and_alternation_witness :
  let s := run [Click bothLoaded; Frame 16] initialEngine in
  let r := currentRender bothLoaded initialEngine in
  transitionRef (step s (Click bothLoaded)) = transitionRef s /\
  (activeIndex (animate r 1416 s) = tr_to (transitionRef s) /\
   isAnimatingRef (animate r 1416 s) = false) /\
  activeIndex (completedRuns bothLoaded [16; 2000; 4000] (mountedEngine 400 300))
  = (3 mod 2)%nat.
Proof.
  intros s r.
  destruct sampleMidRun_facts as [Hrun Hstart].
  pose proof (transition_pair_and_alternation
                [Click bothLoaded; Frame 16] (Click bothLoaded) r 1416
                bothLoaded [16; 2000; 4000] (mountedEngine 400 300))
    as (_ & Hkeep & _ & Hdone & Halt).
  split; [| split].
  - apply Hkeep. exact Hrun.
  - apply Hdone. unfold progressAt, startOf. subst s. rewrite Hstart.
    destruct (Req_dec_T 16 0) as [E | _]; [lra |].
    replace ((1416 - 16) / r_duration r) with 1 by (cbn; lra).
    rewrite clamp01_1. lra.
  - apply Halt.
    + discriminate.
    + discriminate.
    + cbn. lra.
    + repeat constructor; lra.
    + repeat split.
    + reflexivity.
Defined.

(** ** Image slots *)

Lemma slot_array_set_same (l : LoadedImages) (i : nat)
    (v : option HTMLImageElement) :
  slot (array_set l i v) i = v.
Proof.
  unfold slot. revert l.
  induction i as [| i IH]; intros [| entry rest]; cbn; auto.
Qed.

Lemma slot_array_set_other (l : LoadedImages) (i j : nat)
    (v : option HTMLImageElement) :
  j <> i -> slot (array_set l i v) j = slot l j.
Proof.
  unfold slot. revert l j.
  induction i as [| i IH]; intros [| entry rest] [| j] Hne; cbn;
    try reflexivity; try congruence.
  - destruct j; reflexivity.
  - rewrite (IH [] j) by congruence. destruct j; reflexivity.
  - apply IH. congruence.
Qed.

Lemma startLoad_slot (st : AssetState) (entry : nat * string) (i : nat) :
  slot (images (startLoad st entry)) i
  = if Nat.eqb i (fst entry) then None else slot (images st) i.
Proof.
  destruct entry as [index src]. cbn.
  destruct (Nat.eqb_spec i index) as [-> | Hne].
  - apply slot_array_set_same.
  - apply slot_array_set_other. exact Hne.
Qed.

Lemma fold_startLoad_slot (entries : list (nat * string)) :
  forall (st : AssetState) (i : nat),
    slot (images (fold_left startLoad entries st)) i
    = if existsb (fun entry => Nat.eqb i (fst entry)) entries
      then None else slot (images st) i.
Proof.
  induction entries as [| entry entries IH]; intros st i; cbn; [reflexivity |].
  rewrite IH, startLoad_slot.
  destruct (Nat.eqb i (fst entry)); cbn; [| reflexivity].
  destruct (existsb _ entries); reflexivity.
Qed.

Lemma fold_startLoad_pending (entries : list (nat * string)) :
  forall st : AssetState,
    pending (fold_left startLoad entries st)
    = pending st ++ map (fun entry => mkLoad (fst entry) (snd entry)) entries.
Proof.
  induction entries as [| [index src] entries IH]; intros st; cbn.
  - rewrite app_nil_r. reflexivity.
  - rewrite IH. cbn. rewrite <- app_assoc. reflexivity.
Qed.

Lemma nth_error_combine {A B : Type} (l1 : list A) :
  forall (l2 : list B) (i : nat) (a : A) (b : B),
    nth_error l1 i = Some a ->
    nth_error l2 i = Some b ->
    nth_error (combine l1 l2) i = Some (a, b).
Proof.
  induction l1 as [| x l1 IH]; intros [| y l2] [| i] a b Ha Hb;
    cbn in *; try discriminate.
  - congruence.
  - apply IH; assumption.
Qed.

Lemma indexed_covers (sources : list string) (i : nat) :
  (i < List.length sources)%nat ->
  existsb (fun entry => Nat.eqb i (fst entry)) (indexed sources) = true.
Proof.
  intros Hi. apply existsb_exists.
  destruct (nth_error sources i) as [src |] eqn:Esrc.
  2:{ apply nth_error_None in Esrc. lia. }
  exists (i, src). split; [| apply Nat.eqb_refl].
  apply (nth_error_In _ i). unfold indexed.
  apply nth_error_combine; [| exact Esrc].
  rewrite nth_error_seq_lt by exact Hi. reflexivity.
Qed.

(** C1 as stated fails: with slot 0 replaced by A and then by B before
    either has loaded, B's load finishes first and puts B's image in slot 0;
    A's load, which was started earlier and is still outstanding, finishes
    next, and its completion is committed: slot 0 now holds A's image. *)
Lemma superseded_load_is_committed :
  let afterB := completeLoad 4 800 600 twiceReplaced in
  let afterA := completeLoad 2 640 480 afterB in
  nth_error (pending twiceReplaced) 2 = Some (mkLoad 0 sourceA) /\
  nth_error (pending twiceReplaced) 4 = Some (mkLoad 0 sourceB) /\
  slot (images twiceReplaced) 0 = None /\
  slot (images afterB) 0 = Some (mkImage sourceB 800 600) /\
  slot (images afterA) 0 = Some (mkImage sourceA 640 480) /\
  images afterA <> images afterB.
Proof.
  cbv zeta. repeat split.
  cbn. intros H. discriminate H.
Qed.

(** C1 amended: starting the loads for a list of sources sets each of their
    slots to absent and leaves every earlier handler outstanding; and when
    any outstanding load completes, whether or not a newer load was started
    for its slot, its image is put in its slot and the other slots keep
    their contents.  A slot therefore shows the image of the load that
    completed last. *)
Theorem load_completion_always_commits
    (st : AssetState) (sources : list string) (l : Load) (w h : R) (i : nat) :
  ((i < List.length sources)%nat ->
   slot (images (useLoadedImages_effect sources st)) i = None) /\
  (In l (pending st) -> In l (pending (useLoadedImages_effect sources st))) /\
  slot (images (onload l w h st)) (load_index l)
  = Some (mkImage (load_src l) w h) /\
  (i <> load_index l ->
   slot (images (onload l w h st)) i = slot (images st) i) /\
  (In l (pending st) ->
   slot (images (onload l w h (useLoadedImages_effect sources st)))
     (load_index l)
   = Some (mkImage (load_src l) w h)).
Proof.
  unfold useLoadedImages_effect.
  split; [| split; [| split; [| split]]].
  - intros Hi. rewrite fold_startLoad_slot, indexed_covers by exact Hi.
    reflexivity.
  - intros Hin. rewrite fold_startLoad_pending. apply in_or_app. left.
    exact Hin.
  - apply slot_array_set_same.
  - intros Hne. apply slot_array_set_other. exact Hne.
  - intros _. apply slot_array_set_same.
Qed.

Lemma load_completion_always_commits_witness :
  let st := useLoadedImages_effect DEFAULT_SOURCES initialAssets in
  let sources := [sourceB; "/default-second.svg"%string] in
  let l := mkLoad 0 "/default-first.svg" in
  slot (images (useLoadedImages_effect sources st)) 1 = None /\
  In l (pending (useLoadedImages_effect sources st)) /\
  slot (images (onload l 640 480 st)) 1 = slot (images st) 1 /\
  slot (images (onload l 640 480 (useLoadedImages_effect sources st))) 0
  = Some (mkImage "/default-first.svg" 640 480).
Proof.
  intros st sources l.
  pose proof (load_completion_always_commits st sources l 640 480 1)
    as (Hreset & Hkeep & _ & Hother & Hlate).
  split; [| split; [| split]].
  - apply Hreset. cbn. lia.
  - apply Hkeep. cbn. left. reflexivity.
  - apply Hother. cbn. lia.
  - apply Hlate. cbn. left. reflexivity.
Defined.

(** ** Feather overlay *)

Lemma clamp01_id (x : R) : 0 <= x <= 1 -> clamp01 x = x.
Proof.
  intros [H0 H1]. unfold clamp01, Rmax, Rmin.
  destruct (Rle_dec 1 x); destruct (Rle_dec 0 _); lra.
Qed.

Lemma drawFeather_drawn (progress w h baseSize baseX : R) (seed : FeatherSeed) :
  isDrawn progress seed ->
  exists (cx cy : R) (rest : list CanvasOp),
    drawFeather progress w h baseSize baseX seed
    = Save :: SetGlobalAlpha (0.5 * fadeOf progress seed)
        :: Translate cx cy
        :: Rotate (-0.35 + sway seed * (1 - fadeOf progress seed))
        :: rest.
Proof.
  unfold isDrawn, fadeOf, drawFeather. intros [Hlocal Hfade].
  destruct (Rle_dec _ 0); [lra |].
  destruct (Rle_dec _ 0.01); [lra |].
  do 3 eexists.
  rewrite (Rmult_comm 0.5). reflexivity.
Qed.

Lemma drawFeather_ops (progress w h baseSize baseX : R) (seed : FeatherSeed)
    (op : CanvasOp) :
  In op (drawFeather progress w h baseSize baseX seed) ->
  isDrawn progress seed /\
  (forall angle, op = Rotate angle ->
                 angle = -0.35 + sway seed * (1 - fadeOf progress seed)) /\
  (forall a, op = SetGlobalAlpha a -> a = 0.5 * fadeOf progress seed).
Proof.
  unfold isDrawn, fadeOf, drawFeather.
  destruct (Rle_dec _ 0) as [| Hlocal]; [intros [] |].
  destruct (Rle_dec _ 0.01) as [| Hfade]; [intros [] |].
  intros Hin. split; [lra |].
  cbn in Hin.
  repeat (destruct Hin as [<- | Hin]);
    try (split; intros ? E; try discriminate E; injection E as <-;
         try reflexivity; lra).
  destruct Hin.
Qed.

Lemma PI_below : PI < 3.2.
Proof.
  destruct (PI_2_3_7_ineq 1) as [_ H].
  unfold sum_f_R0, tg_alt, PI_2_3_7_tg, Ratan_seq in H.
  simpl in H. lra.
Qed.

Lemma first_seed_sway_negative : sway (featherSeedAt 0) < 0.
Proof.
  pose proof PI_below. pose proof PI2_3_2.
  unfold featherSeedAt; cbn [sway].
  replace ((INR 0 + 1) * 37 * 0.61)
    with ((37 * 0.61 - 6 * PI) + 2 * INR 3 * PI) by (simpl; lra).
  rewrite sin_period.
  assert (sin (37 * 0.61 - 6 * PI) < 0) by (apply sin_lt_0; lra).
  lra.
Qed.

Lemma first_seed_fade : fadeOf 0.3 (featherSeedAt 0) = 0.6.
Proof.
  unfold fadeOf, featherSeedAt; cbn [delay].
  replace ((0.3 - INR (0 mod 6) * 0.05) / 0.75) with 0.4 by (simpl; lra).
  rewrite clamp01_id; lra.
Qed.

Lemma first_feather_ops :
  let seed := featherSeedAt 0 in
  let ops :=
    drawFeathers generateFeatherSeeds 0.3 400 300
      (computeRavenGeometry 400 300 0.3) in
  isDrawn 0.3 seed /\
  nth_error ops 1 = Some (SetGlobalAlpha (0.5 * fadeOf 0.3 seed)) /\
  nth_error ops 3
  = Some (Rotate (-0.35 + sway seed * (1 - fadeOf 0.3 seed))).
Proof.
  cbv zeta.
  assert (Hdrawn : isDrawn 0.3 (featherSeedAt 0)).
  { unfold isDrawn. rewrite first_seed_fade.
    unfold featherSeedAt; cbn [delay]. simpl. lra. }
  split; [exact Hdrawn |].
  unfold drawFeathers, generateFeatherSeeds.
  change (seq 0 18) with (0%nat :: seq 1 17). cbn [map flat_map].
  match goal with
  | |- context [drawFeather ?p ?w ?h ?bs ?bx (featherSeedAt 0)] =>
      destruct (drawFeather_drawn p w h bs bx (featherSeedAt 0) Hdrawn)
        as (cx & cy & rest & ->)
  end.
  split; reflexivity.
Qed.

(** C2 as stated fails on the rotation: at progress 0.3 on a 400 by 300
    viewport, the first generated seed (delay 0, fade 0.6) is drawn with
    opacity [0.5 * fade] and with the rotation
    [-0.35 + sway * (1 - fade)], which differs from [-0.35 + sway * fade]
    because its sway is not zero. *)
Lemma feather_rotation_uses_one_minus_fade :
  let seed := featherSeedAt 0 in
  let fade := 1 - clamp01 ((0.3 - delay seed) / 0.75) in
  let ops :=
    drawFeathers generateFeatherSeeds 0.3 400 300
      (computeRavenGeometry 400 300 0.3) in
  nth_error generateFeatherSeeds 0 = Some seed /\
  fade = 0.6 /\
  nth_error ops 1 = Some (SetGlobalAlpha (0.5 * fade)) /\
  nth_error ops 3 = Some (Rotate (-0.35 + sway seed * (1 - fade))) /\
  -0.35 + sway seed * (1 - fade) <> -0.35 + sway seed * fade.
Proof.
  cbv zeta. fold (fadeOf 0.3 (featherSeedAt 0)).
  destruct first_feather_ops as (_ & Halpha & Hrot).
  pose proof first_seed_fade as Hfade.
  pose proof first_seed_sway_negative as Hsway.
  split; [reflexivity |].
  split; [exact Hfade |].
  split; [exact Halpha |].
  split; [exact Hrot |].
  rewrite Hfade. nra.
Qed.

(** C2 amended: every feather that is drawn (its local progress is positive
    and its fade exceeds 0.01) is issued with opacity [0.5 * fade] and
    rotated by [-0.35 + seed.sway * (1 - fade)], where
    [fade = 1 - clamp01((progress - seed.delay) / 0.75)]; and every rotation
    and every opacity that the feather loop sets arise this way. *)
Theorem feather_rotation_and_opacity
    (seeds : list FeatherSeed) (progress w h : R) (g : RavenGeometry)
    (seed : FeatherSeed) (angle a : R) :
  let ops := drawFeathers seeds progress w h g in
  (In seed seeds ->
   0 < (progress - delay seed) / 0.75 ->
   0.01 < 1 - clamp01 ((progress - delay seed) / 0.75) ->
   exists (before : list CanvasOp) (cx cy : R) (rest : list CanvasOp),
     ops = before
           ++ Save
           :: SetGlobalAlpha
                (0.5 * (1 - clamp01 ((progress - delay seed) / 0.75)))
           :: Translate cx cy
           :: Rotate
                (-0.35
                 + sway seed
                   * (1 - (1 - clamp01 ((progress - delay seed) / 0.75))))
           :: rest) /\
  (In (Rotate angle) ops ->
   exists sd : FeatherSeed,
     In sd seeds /\ isDrawn progress sd /\
     angle = -0.35 + sway sd * (1 - fadeOf progress sd)) /\
  (In (SetGlobalAlpha a) ops ->
   exists sd : FeatherSeed,
     In sd seeds /\ isDrawn progress sd /\ a = 0.5 * fadeOf progress sd).
Proof.
  intros ops. unfold ops, drawFeathers.
  split; [| split].
  - intros Hin Hlocal Hfade.
    destruct (in_split _ _ Hin) as (l1 & l2 & ->).
    rewrite flat_map_app. cbn [flat_map].
    match goal with
    | |- context [drawFeather ?p ?w' ?h' ?bs ?bx seed] =>
        destruct (drawFeather_drawn p w' h' bs bx seed
                    (conj Hlocal Hfade)) as (cx & cy & rest & ->)
    end.
    rewrite <- app_assoc. cbn [app]. unfold fadeOf.
    eexists _, cx, cy, _. reflexivity.
  - intros Hin. apply in_app_or in Hin. destruct Hin as [Hin | Hin].
    + apply in_flat_map in Hin. destruct Hin as (sd & Hsd & Hop).
      destruct (drawFeather_ops _ _ _ _ _ _ _ Hop) as (Hd & Hrot & _).
      exists sd. auto.
    + cbn in Hin. repeat (destruct Hin as [E | Hin]; [discriminate E |]).
      destruct Hin.
  - intros Hin. apply in_app_or in Hin. destruct Hin as [Hin | Hin].
    + apply in_flat_map in Hin. destruct Hin as (sd & Hsd & Hop).
      destruct (drawFeather_ops _ _ _ _ _ _ _ Hop) as (Hd & _ & Halpha).
      exists sd. auto.
    + cbn in Hin. repeat (destruct Hin as [E | Hin]; [discriminate E |]).
      destruct Hin.
Qed.

Lemma feather_rotation_and_opacity_witness :
  let seed := featherSeedAt 0 in
  let fade := 1 - clamp01 ((0.3 - delay seed) / 0.75) in
  let ops :=
    drawFeathers generateFeatherSeeds 0.3 400 300
      (computeRavenGeometry 400 300 0.3) in
  (exists (before : list CanvasOp) (cx cy : R) (rest : list CanvasOp),
      ops = before
            ++ Save
            :: SetGlobalAlpha (0.5 * fade)
            :: Translate cx cy
            :: Rotate (-0.35 + sway seed * (1 - fade))
            :: rest) /\
  (exists sd : FeatherSeed,
      In sd generateFeatherSeeds /\ isDrawn 0.3 sd /\
      -0.35 + sway seed * (1 - fadeOf 0.3 seed)
      = -0.35 + sway sd * (1 - fadeOf 0.3 sd)) /\
  (exists sd : FeatherSeed,
      In sd generateFeatherSeeds /\ isDrawn 0.3 sd /\
      0.5 * fadeOf 0.3 seed = 0.5 * fadeOf 0.3 sd).
Proof.
  intros seed fade ops.
  destruct first_feather_ops as ([Hlocal Hfade] & Halpha & Hrot).
  pose proof (feather_rotation_and_opacity generateFeatherSeeds 0.3 400 300
                (computeRavenGeometry 400 300 0.3) seed
                (-0.35 + sway seed * (1 - fadeOf 0.3 seed))
                (0.5 * fadeOf 0.3 seed))
    as (Hdrawn & Hangles & Halphas).
  split; [| split].
  - apply Hdrawn; [left; reflexivity | exact Hlocal | exact Hfade].
  - apply Hangles. exact (nth_error_In _ _ Hrot).
  - apply Halphas. exact (nth_error_In _ _ Halpha).
Defined.

(** * Further properties of the code *)

(** ** Clamping and easing *)

Lemma clamp01_range (x : R) : 0 <= clamp01 x <= 1.
Proof.
  unfold clamp01, Rmax, Rmin.
  destruct (Rle_dec 1 x); destruct (Rle_dec 0 _); lra.
Qed.

Lemma clamp01_monotone (x y : R) : x <= y -> clamp01 x <= clamp01 y.
Proof.
  intros Hxy. unfold clamp01, Rmax, Rmin.
  destruct (Rle_dec 1 x); destruct (Rle_dec 1 y);
    repeat match goal with |- context [Rle_dec 0 ?v] => destruct (Rle_dec 0 v) end;
    lra.
Qed.

(** X1: [clamp01] always lands in [0, 1], leaves values of [0, 1] alone,
    sends everything below 0 to 0 and everything above 1 to 1, never
    reverses an order, and clamping twice is clamping once. *)
Theorem clamp01_saturates (x y : R) :
  0 <= clamp01 x <= 1 /\
  (0 <= x <= 1 -> clamp01 x = x) /\
  (x <= 0 -> clamp01 x = 0) /\
  (1 <= x -> clamp01 x = 1) /\
  (x <= y -> clamp01 x <= clamp01 y) /\
  clamp01 (clamp01 x) = clamp01 x.
Proof.
  split; [apply clamp01_range |].
  split; [apply clamp01_id |].
  split.
  { intros Hx. unfold clamp01, Rmax, Rmin.
    destruct (Rle_dec 1 x); destruct (Rle_dec 0 _); lra. }
  split.
  { intros Hx. unfold clamp01, Rmax, Rmin.
    destruct (Rle_dec 1 x); destruct (Rle_dec 0 _); lra. }
  split; [apply clamp01_monotone |].
  apply clamp01_id, clamp01_range.
Qed.

Lemma clamp01_saturates_witness :
  0 <= clamp01 0.4 <= 1 /\
  clamp01 0.4 = 0.4 /\
  clamp01 (-3) = 0 /\
  clamp01 7 = 1 /\
  clamp01 0.4 <= clamp01 7.
Proof.
  pose proof (clamp01_saturates 0.4 7) as (Hr & Hid & _ & _ & Hmono & _).
  pose proof (clamp01_saturates (-3) 0) as (_ & _ & Hlow & _).
  pose proof (clamp01_saturates 7 7) as (_ & _ & _ & Hhigh & _).
  repeat split; try apply Hr; [apply Hid | apply Hlow | apply Hhigh | apply Hmono];
    lra.
Defined.

Lemma easeInOutCubic_range (t : R) :
  0 <= t <= 1 -> 0 <= easeInOutCubic t <= 1.
Proof.
  intros [H0 H1].
  pose proof (easeInOutCubic_monotone 0 t ltac:(lra) H0 H1) as Hlow.
  pose proof (easeInOutCubic_monotone t 1 H0 H1 ltac:(lra)) as Hhigh.
  rewrite easeInOutCubic_0 in Hlow. rewrite easeInOutCubic_1 in Hhigh.
  split; assumption.
Qed.

(** X2: on the unit interval both easing curves stay within [0, 1];
    [easeInOutCubic] is symmetric about the midpoint,
    [easeInOutCubic (1 - t) = 1 - easeInOutCubic t] with value 0.5 at 0.5,
    and [easeOutQuart] runs ahead of linear progress, [t <= easeOutQuart t]. *)
Theorem easing_range_and_symmetry (t : R) :
  0 <= t <= 1 ->
  0 <= easeInOutCubic t <= 1 /\
  0 <= easeOutQuart t <= 1 /\
  easeInOutCubic (1 - t) = 1 - easeInOutCubic t /\
  easeInOutCubic 0.5 = 0.5 /\
  t <= easeOutQuart t.
Proof.
  intros [H0 H1].
  split; [apply easeInOutCubic_range; lra |].
  assert (Hq : 0 <= (1 - t) ^ 4 <= 1 - t).
  { assert (0 <= (1 - t) * (1 - t) <= 1) by nra.
    assert (0 <= (1 - t) * (1 - t) * (1 - t) <= 1) by nra.
    simpl. nra. }
  split; [unfold easeOutQuart; lra |].
  split.
  { destruct (Rlt_dec t 0.5) as [Hlt | Hge].
    - rewrite (easeInOutCubic_low t) by exact Hlt.
      rewrite easeInOutCubic_high by lra. simpl. lra.
    - destruct (Req_dec_T t 0.5) as [-> | Hne].
      + replace (1 - 0.5) with 0.5 by lra.
        rewrite easeInOutCubic_high by lra. simpl. lra.
      + rewrite (easeInOutCubic_high t) by lra.
        rewrite easeInOutCubic_low by lra. simpl. lra. }
  split; [rewrite easeInOutCubic_high by lra; simpl; lra |].
  unfold easeOutQuart. lra.
Qed.

Lemma easing_range_and_symmetry_witness :
  0 <= easeInOutCubic 0.25 <= 1 /\
  0 <= easeOutQuart 0.25 <= 1 /\
  easeInOutCubic (1 - 0.25) = 1 - easeInOutCubic 0.25 /\
  easeInOutCubic 0.5 = 0.5 /\
  0.25 <= easeOutQuart 0.25.
Proof.
  apply (easing_range_and_symmetry 0.25). lra.
Defined.

(** ** Geometry placement *)

(** X3: for a progress in [0, 1] and a viewport with non-negative sides,
    the silhouette's [offsetX] runs from [-0.75 * shapeWidth] to
    [width + 0.1 * shapeWidth], it never moves backwards as progress grows,
    its [offsetY] stays between [0.52 * height - 0.08 * min(width, height)]
    and [0.52 * height], and the boxes keep the ratio
    [shapeHeight * 1.32 = shapeWidth * 0.74]. *)
Theorem geometry_placement_bounds (w h p q : R) :
  0 <= w -> 0 <= h -> 0 <= p -> p <= q -> q <= 1 ->
  let g := computeRavenGeometry w h p in
  let g' := computeRavenGeometry w h q in
  offsetX g <= offsetX g' /\
  - 0.75 * shapeWidth g <= offsetX g <= w + 0.1 * shapeWidth g /\
  0.52 * h - 0.08 * Rmin w h <= offsetY g <= 0.52 * h /\
  shapeHeight g * 1.32 = shapeWidth g * 0.74 /\
  0 <= eased g <= 1.
Proof.
  intros Hw Hh Hp Hpq Hq g g'.
  assert (Hbase : 0 <= Rmin w h) by (apply Rmin_glb; assumption).
  pose proof (easeInOutCubic_range p ltac:(lra)) as [He0 He1].
  pose proof (easeInOutCubic_monotone p q Hp Hpq Hq) as Hmono.
  assert (Hsin : 0 <= sin (easeInOutCubic p * PI) <= 1).
  { pose proof PI_RGT_0.
    split; [apply sin_ge_0; nra | apply SIN_bound]. }
  unfold g, g', computeRavenGeometry;
    cbn [offsetX offsetY shapeWidth shapeHeight eased].
  repeat split; nra.
Qed.

Lemma geometry_placement_bounds_witness :
  let g := computeRavenGeometry 400 300 0.25 in
  let g' := computeRavenGeometry 400 300 0.75 in
  offsetX g <= offsetX g' /\
  - 0.75 * shapeWidth g <= offsetX g <= 400 + 0.1 * shapeWidth g /\
  0.52 * 300 - 0.08 * Rmin 400 300 <= offsetY g <= 0.52 * 300 /\
  shapeHeight g * 1.32 = shapeWidth g * 0.74 /\
  0 <= eased g <= 1.
Proof.
  apply (geometry_placement_bounds 400 300 0.25 0.75); lra.
Defined.

(** ** Cover fit and path tracing *)

Lemma drawCoverImage_shape (img : HTMLImageElement) (width height : R) :
  0 < img_width img -> 0 < img_height img -> 0 < width -> 0 < height ->
  exists x y w h : R,
    drawCoverImage img width height = [DrawImage img x y w h] /\
    width <= w /\ height <= h /\
    (w = width \/ h = height) /\
    w * img_height img = h * img_width img /\
    x = (width - w) / 2 /\ y = (height - h) / 2.
Proof.
  intros Hiw Hih Hw Hh. unfold drawCoverImage.
  set (ratio := img_width img / img_height img).
  assert (Hratio : 0 < ratio) by (apply Rdiv_lt_0_compat; assumption).
  assert (Hir : ratio * img_height img = img_width img)
    by (unfold ratio; field; lra).
  destruct (Rgt_dec ratio (width / height)) as [Hwide | Htall].
  - exists ((width - height * ratio) / 2), ((height - height) / 2),
      (height * ratio), height.
    assert (Hcmp : width < height * ratio).
    { apply (Rmult_gt_compat_r height) in Hwide; [| lra].
      replace (width / height * height) with width in Hwide by (field; lra).
      lra. }
    split; [reflexivity |].
    split; [lra |]. split; [lra |].
    split; [right; reflexivity |].
    split; [rewrite <- Hir; ring |].
    split; reflexivity.
  - exists ((width - width) / 2), ((height - width / ratio) / 2),
      width, (width / ratio).
    assert (Hcmp : height * ratio <= width).
    { apply Rnot_gt_le in Htall.
      apply (Rmult_le_compat_r height) in Htall; [| lra].
      replace (width / height * height) with width in Htall by (field; lra).
      lra. }
    assert (Hh' : height <= width / ratio).
    { apply (Rmult_le_reg_r ratio); [exact Hratio |].
      replace (width / ratio * ratio) with width by (field; lra). exact Hcmp. }
    split; [reflexivity |].
    split; [lra |]. split; [lra |].
    split; [left; reflexivity |].
    split; [rewrite <- Hir; field; lra |].
    split; reflexivity.
Qed.

(** X4: for an image and a viewport with positive sides, [drawCoverImage]
    issues one [drawImage] whose rectangle keeps the image's aspect ratio,
    is centred on the viewport, matches the viewport exactly on one axis
    and is at least as large on the other, so that it covers the whole
    viewport with no bars. *)
Theorem drawCoverImage_covers (img : HTMLImageElement) (width height : R) :
  0 < img_width img -> 0 < img_height img -> 0 < width -> 0 < height ->
  exists x y w h : R,
    drawCoverImage img width height = [DrawImage img x y w h] /\
    w * img_height img = h * img_width img /\
    (w = width \/ h = height) /\
    x + w / 2 = width / 2 /\ y + h / 2 = height / 2 /\
    x <= 0 /\ y <= 0 /\ width <= x + w /\ height <= y + h.
Proof.
  intros Hiw Hih Hw Hh.
  destruct (drawCoverImage_shape img width height Hiw Hih Hw Hh)
    as (x & y & w & h & Hops & Hwle & Hhle & Hone & Hasp & -> & ->).
  exists ((width - w) / 2), ((height - h) / 2), w, h.
  split; [exact Hops |].
  split; [exact Hasp |].
  split; [exact Hone |].
  repeat split; lra.
Qed.

Lemma drawCoverImage_covers_witness :
  exists x y w h : R,
    drawCoverImage (mkImage "wide.png" 1600 600) 400 300
    = [DrawImage (mkImage "wide.png" 1600 600) x y w h] /\
    w * 600 = h * 1600 /\
    (w = 400 \/ h = 300) /\
    x + w / 2 = 400 / 2 /\ y + h / 2 = 300 / 2 /\
    x <= 0 /\ y <= 0 /\ 400 <= x + w /\ 300 <= y + h.
Proof.
  apply (drawCoverImage_covers (mkImage "wide.png" 1600 600) 400 300);
    cbn; lra.
Defined.

Lemma pathVertices_lines (pts : list Point) (tail : list CanvasOp) :
  pathVertices (map (fun p => LineTo (px p) (py p)) pts ++ tail)
  = pts ++ pathVertices tail.
Proof.
  induction pts as [| [x y] pts IH]; cbn; [reflexivity |].
  rewrite IH. reflexivity.
Qed.

(** X5: [traceRavenPath] issues nothing for an empty point list; otherwise
    it issues [beginPath], then a [moveTo] to the first point, then a
    [lineTo] to each further point in order, then [closePath] -- two calls
    more than there are points -- so the vertices it visits are the given
    points in the given order.  For the silhouette of any viewport and
    progress that is a closed path of 27 calls. *)
Theorem traceRavenPath_visits_points
    (pts : list Point) (w h progress : R) (i : nat) (pt : Point) :
  traceRavenPath [] = [] /\
  (pts <> [] ->
   List.length (traceRavenPath pts) = (List.length pts + 2)%nat /\
   hd_error (traceRavenPath pts) = Some BeginPath /\
   last (traceRavenPath pts) Save = ClosePath) /\
  (nth_error pts i = Some pt ->
   nth_error (traceRavenPath pts) (S i)
   = Some (match i with
           | O => MoveTo (px pt) (py pt)
           | S _ => LineTo (px pt) (py pt)
           end)) /\
  pathVertices (traceRavenPath pts) = pts /\
  List.length (traceRavenPath (points (computeRavenGeometry w h progress)))
  = 27%nat /\
  pathVertices (traceRavenPath (points (computeRavenGeometry w h progress)))
  = points (computeRavenGeometry w h progress).
Proof.
  assert (Hvisit : forall l, pathVertices (traceRavenPath l) = l).
  { intros [| [x y] rest]; cbn; [reflexivity |].
    rewrite pathVertices_lines. cbn. rewrite app_nil_r. reflexivity. }
  split; [reflexivity |].
  split.
  { intros Hne. destruct pts as [| p0 rest]; [congruence |].
    cbn. rewrite length_app, length_map. cbn.
    split; [lia |]. split; [reflexivity |].
    destruct (map _ rest ++ [ClosePath]) eqn:E.
    - destruct (map _ rest); discriminate E.
    - rewrite <- E. apply last_last. }
  split.
  { intros Hpt. destruct pts as [| p0 rest]; [destruct i; discriminate Hpt |].
    destruct i as [| i]; cbn in *.
    - injection Hpt as <-. reflexivity.
    - rewrite nth_error_app1.
      + rewrite nth_error_map, Hpt. reflexivity.
      + rewrite length_map. apply nth_error_Some. congruence. }
  split; [apply Hvisit |].
  split; [reflexivity | apply Hvisit].
Qed.

Lemma traceRavenPath_visits_points_witness :
  let pts := [mkPoint 0 0; mkPoint 4 0; mkPoint 4 3] in
  (List.length (traceRavenPath pts) = 5%nat /\
   hd_error (traceRavenPath pts) = Some BeginPath /\
   last (traceRavenPath pts) Save = ClosePath) /\
  nth_error (traceRavenPath pts) 1 = Some (MoveTo 0 0) /\
  nth_error (traceRavenPath pts) 3 = Some (LineTo 4 3).
Proof.
  intros pts.
  pose proof (traceRavenPath_visits_points pts 400 300 0.5 0 (mkPoint 0 0))
    as (_ & Hshape & Hfirst & _).
  pose proof (traceRavenPath_visits_points pts 400 300 0.5 2 (mkPoint 4 3))
    as (_ & _ & Hthird & _).
  split; [apply Hshape; discriminate |].
  split; [apply Hfirst; reflexivity | apply Hthird; reflexivity].
Defined.

(** ** Feather overlay at the ends of a run *)

Lemma generated_delay_bounds (seed : FeatherSeed) :
  In seed generateFeatherSeeds ->
  0 <= delay seed <= 0.25 /\ -0.9 <= sway seed <= 0.9.
Proof.
  unfold generateFeatherSeeds. intros Hin.
  apply in_map_iff in Hin. destruct Hin as (idx & <- & _).
  unfold featherSeedAt; cbn [delay sway].
  assert (Hmod : (idx mod 6 < 6)%nat) by (apply Nat.mod_upper_bound; lia).
  assert (H0 : 0 <= INR (idx mod 6)) by apply pos_INR.
  assert (H5 : INR (idx mod 6) <= 5).
  { replace 5 with (INR 5) by (simpl; lra). apply le_INR. lia. }
  pose proof (SIN_bound ((INR idx + 1) * 37 * 0.61)).
  lra.
Qed.




Lemma isDrawn_fade_bounds (progress : R) (seed : FeatherSeed) :
  isDrawn progress seed -> 0.01 < fadeOf progress seed < 1.
Proof.
  unfold isDrawn, fadeOf. intros [Hlocal Hfade].
  split; [exact Hfade |].
  assert (0 < clamp01 ((progress - delay seed) / 0.75)); [| lra].
  unfold clamp01, Rmax, Rmin.
  destruct (Rle_dec 1 _); destruct (Rle_dec 0 _); lra.
Qed.

(** X7: whatever the seeds, every opacity the feather overlay sets lies
    strictly between 0.005 and 0.5; and with the generated seeds every
    rotation it applies lies strictly between -1.25 and 0.55 radians. *)
Theorem feather_opacity_and_tilt_bounds
    (seeds : list FeatherSeed) (progress w h : R) (g : RavenGeometry)
    (a angle : R) :
  (In (SetGlobalAlpha a) (drawFeathers seeds progress w h g) ->
   0.005 < a < 0.5) /\
  (In (Rotate angle) (drawFeathers generateFeatherSeeds progress w h g) ->
   -1.25 < angle < 0.55).
Proof.
  unfold drawFeathers. split.
  - intros Hin. apply in_app_or in Hin. destruct Hin as [Hin | Hin].
    + apply in_flat_map in Hin. destruct Hin as (sd & _ & Hop).
      destruct (drawFeather_ops _ _ _ _ _ _ _ Hop) as (Hd & _ & Halpha).
      rewrite (Halpha a eq_refl).
      pose proof (isDrawn_fade_bounds _ _ Hd). lra.
    + cbn in Hin. repeat (destruct Hin as [E | Hin]; [discriminate E |]).
      destruct Hin.
  - intros Hin. apply in_app_or in Hin. destruct Hin as [Hin | Hin].
    + apply in_flat_map in Hin. destruct Hin as (sd & Hsd & Hop).
      destruct (drawFeather_ops _ _ _ _ _ _ _ Hop) as (Hd & Hrot & _).
      rewrite (Hrot angle eq_refl).
      pose proof (isDrawn_fade_bounds _ _ Hd).
      destruct (generated_delay_bounds sd Hsd) as [_ Hsway].
      nra.
    + cbn in Hin. repeat (destruct Hin as [E | Hin]; [discriminate E |]).
      destruct Hin.
Qed.

Lemma feather_opacity_and_tilt_bounds_witness :
  let seed := featherSeedAt 0 in
  0.005 < 0.5 * fadeOf 0.3 seed < 0.5 /\
  -1.25 < -0.35 + sway seed * (1 - fadeOf 0.3 seed) < 0.55.
Proof.
  intros seed.
  destruct first_feather_ops as (_ & Halpha & Hrot).
  pose proof (feather_opacity_and_tilt_bounds generateFeatherSeeds 0.3 400 300
                (computeRavenGeometry 400 300 0.3)
                (0.5 * fadeOf 0.3 seed)
                (-0.35 + sway seed * (1 - fadeOf 0.3 seed)))
    as [Ha Hr].
  split.
  - apply Ha. exact (nth_error_In _ _ Halpha).
  - apply Hr. exact (nth_error_In _ _ Hrot).
Defined.

(** ** What a frame leaves behind on the context *)

Lemma emit_ctx (ops : list CanvasOp) (s : Engine) (ctx : Ctx) :
  ctxRef s = Some ctx -> emit ops s = set_ctxRef (Some (ctx ++ ops)) s.
Proof. intros H. unfold emit. rewrite H. reflexivity. Qed.

Lemma emit_set (ops : list CanvasOp) (s : Engine) (ctx : Ctx) :
  emit ops (set_ctxRef (Some ctx) s) = set_ctxRef (Some (ctx ++ ops)) s.
Proof. reflexivity. Qed.

Lemma set_ctxRef_same (s : Engine) (ctx : Ctx) :
  ctxRef s = Some ctx -> s = set_ctxRef (Some (ctx ++ [])) s.
Proof.
  intros H. destruct s; cbn in H; subst.
  unfold set_ctxRef; cbn. rewrite app_nil_r. reflexivity.
Qed.

Lemma scopedFrom_app (a b : list CanvasOp) :
  forall d d' : nat,
    scopedFrom d a = Some d' -> scopedFrom d (a ++ b) = scopedFrom d' b.
Proof.
  induction a as [| op a IH]; intros d d' H; cbn in *.
  - injection H as <-. reflexivity.
  - destruct op; cbn in *;
      try (destruct d; cbn in *; try discriminate H; apply IH; exact H);
      apply IH; exact H.
Qed.

Lemma scopedFrom_lines (pts : list Point) (d : nat) :
  scopedFrom d (map (fun p => LineTo (px p) (py p)) pts ++ [ClosePath])
  = Some d.
Proof. induction pts as [| p pts IH]; cbn; [reflexivity | exact IH]. Qed.

Lemma traceRavenPath_scoped (pts : list Point) (d : nat) :
  scopedFrom d (traceRavenPath pts) = Some d.
Proof.
  destruct pts as [| p0 rest]; cbn; [reflexivity |].
  apply scopedFrom_lines.
Qed.

Lemma drawCoverImage_scoped (img : HTMLImageElement) (w h : R) (d : nat) :
  scopedFrom d (drawCoverImage img w h) = Some d.
Proof.
  unfold drawCoverImage. destruct (Rgt_dec _ _); reflexivity.
Qed.

Lemma drawFeather_scoped (progress w h baseSize baseX : R)
    (seed : FeatherSeed) (d : nat) :
  scopedFrom d (drawFeather progress w h baseSize baseX seed) = Some d.
Proof.
  unfold drawFeather.
  destruct (Rle_dec _ 0); [reflexivity |].
  destruct (Rle_dec _ 0.01); reflexivity.
Qed.

Lemma drawFeathers_scoped (seeds : list FeatherSeed) (progress w h : R)
    (g : RavenGeometry) (d : nat) :
  scopedFrom d (drawFeathers seeds progress w h g) = Some d.
Proof.
  unfold drawFeathers.
  induction seeds as [| seed seeds IH]; cbn [flat_map app]; [reflexivity |].
  rewrite <- app_assoc.
  rewrite (scopedFrom_app _ _ d d) by apply drawFeather_scoped.
  exact IH.
Qed.

(** X8: [drawFrame] changes nothing but the context, and only by issuing
    further calls on it; in those calls every [restore] closes an earlier
    [save] of the same frame, every [save] is closed, and each change of
    clip, transform, fill style, opacity or compositing mode happens inside
    such a pair -- so a frame leaves the context's drawing state as it
    found it. *)
Theorem drawFrame_is_scoped (r : Render) (progress : R) (s : Engine)
    (ctx : Ctx) :
  ctxRef s = Some ctx ->
  exists ops : list CanvasOp,
    drawFrame r progress s = set_ctxRef (Some (ctx ++ ops)) s /\
    scopedFrom 0 ops = Some 0%nat.
Proof.
  intros Hctx. unfold drawFrame. rewrite Hctx.
  destruct (Req_dec_T _ 0);
    [exists []; split; [apply set_ctxRef_same, Hctx | reflexivity] |].
  destruct (Req_dec_T _ 0);
    [exists []; split; [apply set_ctxRef_same, Hctx | reflexivity] |].
  destruct (slot _ (tr_from _)) as [fromImage |];
    [| exists []; split; [apply set_ctxRef_same, Hctx | reflexivity]].
  destruct (slot _ (tr_to _)) as [toImage |];
    [| exists []; split; [apply set_ctxRef_same, Hctx | reflexivity]].
  rewrite (emit_ctx _ s ctx Hctx), !emit_set, <- !app_assoc.
  eexists. split; [reflexivity |].
  cbn [app scopedFrom changesState andb Nat.eqb].
  rewrite (scopedFrom_app _ _ 0 0) by apply drawCoverImage_scoped.
  cbn [app scopedFrom changesState andb Nat.eqb].
  rewrite (scopedFrom_app _ _ 1 1) by apply traceRavenPath_scoped.
  cbn [app scopedFrom changesState andb Nat.eqb].
  rewrite (scopedFrom_app _ _ 1 1) by apply drawCoverImage_scoped.
  cbn [app scopedFrom changesState andb Nat.eqb].
  rewrite (scopedFrom_app _ _ 1 1) by apply traceRavenPath_scoped.
  cbn [app scopedFrom changesState andb Nat.eqb].
  apply drawFeathers_scoped.
Qed.

Lemma drawFrame_is_scoped_witness :
  let s := mountedEngine 400 300 in
  let r := currentRender bothLoaded s in
  exists (ctx : Ctx) (ops : list CanvasOp),
    ctxRef s = Some ctx /\
    drawFrame r 0.5 s = set_ctxRef (Some (ctx ++ ops)) s /\
    scopedFrom 0 ops = Some 0%nat.
Proof.
  intros s r.
  assert (Hctx : exists ctx, ctxRef s = Some ctx) by (eexists; reflexivity).
  destruct Hctx as [ctx Hctx].
  destruct (drawFrame_is_scoped r 0.5 s ctx Hctx) as (ops & Hdraw & Hscoped).
  exists ctx, ops. auto.
Defined.

(** X9: on a viewport with positive sides, [drawStatic] clears the viewport
    and then paints all of it: with the active image absent it fills the
    full rectangle with the placeholder gradient, and with an image of
    positive size it draws that image over a rectangle that covers the
    viewport.  Nothing but the context changes. *)
Theorem drawStatic_paints_viewport (r : Render) (s : Engine) (ctx : Ctx) :
  ctxRef s = Some ctx ->
  0 < vp_width (viewportRef s) ->
  0 < vp_height (viewportRef s) ->
  (forall img, slot (r_images r) (r_activeIndex r) = Some img ->
               0 < img_width img /\ 0 < img_height img) ->
  let width := vp_width (viewportRef s) in
  let height := vp_height (viewportRef s) in
  exists (before : list CanvasOp) (paint : CanvasOp),
    drawStatic r s
    = set_ctxRef
        (Some (ctx ++ ClearRect 0 0 width height :: before ++ [paint])) s /\
    coversViewport width height paint /\
    match slot (r_images r) (r_activeIndex r) with
    | None =>
        before = [SetFillStyle (placeholderGradient width height)] /\
        paint = FillRect 0 0 width height
    | Some img =>
        before = [] /\ exists x y w h : R, paint = DrawImage img x y w h
    end.
Proof.
  intros Hctx Hw Hh Himg. cbv zeta. unfold drawStatic. rewrite Hctx.
  set (width := vp_width (viewportRef s)) in *.
  set (height := vp_height (viewportRef s)) in *.
  destruct (Req_dec_T width 0) as [E | _]; [lra |].
  destruct (Req_dec_T height 0) as [E | _]; [lra |].
  rewrite (emit_ctx _ s ctx Hctx).
  destruct (slot (r_images r) (r_activeIndex r)) as [img |].
  - destruct (Himg img eq_refl) as [Hiw Hih].
    destruct (drawCoverImage_shape img width height Hiw Hih Hw Hh)
      as (x & y & w & h & Hops & Hwle & Hhle & _ & _ & Hx & Hy).
    rewrite emit_set, Hops, <- app_assoc.
    exists [], (DrawImage img x y w h).
    split; [reflexivity |].
    split; [cbn; lra |].
    split; [reflexivity | exists x, y, w, h; reflexivity].
  - rewrite emit_set, <- app_assoc.
    exists [SetFillStyle (placeholderGradient width height)],
      (FillRect 0 0 width height).
    split; [reflexivity |].
    split; [cbn; lra |].
    split; reflexivity.
Qed.

Lemma drawStatic_paints_viewport_witness :
  let s := mountedEngine 400 300 in
  let r := currentRender secondMissing (setActiveIndex 1 s) in
  exists (ctx : Ctx) (before : list CanvasOp) (paint : CanvasOp),
    drawStatic r s
    = set_ctxRef (Some (ctx ++ ClearRect 0 0 400 300 :: before ++ [paint])) s /\
    coversViewport 400 300 paint /\
    before = [SetFillStyle (placeholderGradient 400 300)] /\
    paint = FillRect 0 0 400 300.
Proof.
  intros s r.
  assert (Hctx : exists ctx, ctxRef s = Some ctx) by (eexists; reflexivity).
  destruct Hctx as [ctx Hctx].
  destruct (drawStatic_paints_viewport r s ctx Hctx)
    as (before & paint & Hdraw & Hcover & Hcase).
  - cbn. lra.
  - cbn. lra.
  - intros img Himg. discriminate Himg.
  - exists ctx, before, paint. cbn in Hcase. tauto.
Defined.

(** ** The tick loop *)

Lemma animate_shape (r : Render) (timestamp : R) (s : Engine) :
  exists c : option Ctx,
    (progressAt r timestamp s < 1 /\
     animate r timestamp s
     = mkEngine (activeIndex s) (isAnimating s) (Some (S (rafCounter s)))
         (startOf timestamp s) (transitionRef s) c (viewportRef s)
         (isAnimatingRef s) (S (rafCounter s))
         (rafQueue s ++ [(S (rafCounter s), r)]))
    \/
    (~ progressAt r timestamp s < 1 /\
     animate r timestamp s
     = mkEngine (tr_to (transitionRef s)) false
         (match animationFrameRef s with
          | Some (S _) => None
          | other => other
          end)
         0 (transitionRef s) c (viewportRef s) false (rafCounter s)
         (match animationFrameRef s with
          | Some (S h) =>
              filter (fun cb => negb (Nat.eqb (fst cb) (S h))) (rafQueue s)
          | _ => rafQueue s
          end)).
Proof.
  unfold progressAt, startOf, animate.
  destruct (Req_dec_T (startTimestampRef s) 0) as [E | E].
  - cbn [startTimestampRef set_startTimestampRef] in *.
    destruct (drawFrame_onlyCtx r
                (clamp01 ((timestamp - timestamp) / r_duration r))
                (set_startTimestampRef timestamp s)) as [c ->].
    destruct (Rlt_dec _ 1) as [Hlt | Hge].
    + exists c. left. split; [exact Hlt |]. destruct s; reflexivity.
    + match goal with
      | |- context [drawStatic r ?x] =>
          destruct (drawStatic_onlyCtx r x) as [c' ->]
      end.
      exists c'. right. split; [exact Hge |].
      destruct s as [ai ia [[| h] |] st tr cx vp iar rc rq]; reflexivity.
  - destruct (drawFrame_onlyCtx r
                (clamp01 ((timestamp - startTimestampRef s) / r_duration r)) s)
      as [c ->].
    destruct (Rlt_dec _ 1) as [Hlt | Hge].
    + exists c. left. split; [exact Hlt |]. destruct s; reflexivity.
    + match goal with
      | |- context [drawStatic r ?x] =>
          destruct (drawStatic_onlyCtx r x) as [c' ->]
      end.
      exists c'. right. split; [exact Hge |].
      destruct s as [ai ia [[| h] |] st tr cx vp iar rc rq]; reflexivity.
Qed.

Lemma progressAt_started (r : Render) (timestamp : R) (s : Engine) :
  startTimestampRef s <> 0 ->
  progressAt r timestamp s
  = clamp01 ((timestamp - startTimestampRef s) / r_duration r).
Proof.
  intros Hne. unfold progressAt, startOf.
  destruct (Req_dec_T (startTimestampRef s) 0); [contradiction | reflexivity].
Qed.

Lemma progressAt_first (r : Render) (timestamp : R) (s : Engine) :
  startTimestampRef s = 0 -> progressAt r timestamp s = 0.
Proof.
  intros E. unfold progressAt, startOf.
  destruct (Req_dec_T (startTimestampRef s) 0); [| contradiction].
  replace ((timestamp - timestamp) / r_duration r) with 0
    by (unfold Rdiv; ring).
  apply clamp01_0.
Qed.

(** X10: with a positive duration, the first tick after a start (run-start
    timestamp still 0) records its own timestamp as the run start, draws
    progress 0 and keeps the run going; a later tick keeps the run going,
    appending one pending callback, while less than the duration has
    elapsed since the run start, and ends the run -- flags cleared,
    [activeIndex] set to the pair's [to], run start reset to 0 -- as soon
    as the duration has elapsed.  Progress is always within [0, 1] and
    never decreases from one timestamp to a later one. *)
Theorem tick_ends_run_when_duration_elapsed
    (r : Render) (timestamp later : R) (s : Engine) :
  0 < r_duration r ->
  (startTimestampRef s = 0 ->
   progressAt r timestamp s = 0 /\
   startTimestampRef (animate r timestamp s) = timestamp /\
   isAnimatingRef (animate r timestamp s) = isAnimatingRef s /\
   activeIndex (animate r timestamp s) = activeIndex s) /\
  (startTimestampRef s <> 0 ->
   timestamp - startTimestampRef s < r_duration r ->
   isAnimatingRef (animate r timestamp s) = isAnimatingRef s /\
   activeIndex (animate r timestamp s) = activeIndex s /\
   startTimestampRef (animate r timestamp s) = startTimestampRef s /\
   rafQueue (animate r timestamp s)
   = rafQueue s ++ [(S (rafCounter s), r)]) /\
  (startTimestampRef s <> 0 ->
   r_duration r <= timestamp - startTimestampRef s ->
   progressAt r timestamp s = 1 /\
   isAnimatingRef (animate r timestamp s) = false /\
   isAnimating (animate r timestamp s) = false /\
   activeIndex (animate r timestamp s) = tr_to (transitionRef s) /\
   startTimestampRef (animate r timestamp s) = 0) /\
  0 <= progressAt r timestamp s <= 1 /\
  (startTimestampRef s <> 0 ->
   timestamp <= later ->
   progressAt r timestamp s <= progressAt r later s).
Proof.
  intros Hd.
  assert (Hdiv : forall x, x / r_duration r < 1 <-> x < r_duration r).
  { intros x. split; intros H.
    - apply (Rmult_lt_compat_r (r_duration r)) in H; [| exact Hd].
      replace (x / r_duration r * r_duration r) with x in H by (field; lra).
      lra.
    - apply (Rmult_lt_reg_r (r_duration r)); [exact Hd |].
      replace (x / r_duration r * r_duration r) with x by (field; lra).
      lra. }
  split; [| split; [| split; [| split]]].
  - intros E.
    pose proof (progressAt_first r timestamp s E) as Hp0.
    destruct (animate_continues r timestamp s ltac:(lra))
      as (Ha & Hr & _ & Hs & _).
    repeat split; try assumption.
    rewrite Hs. unfold startOf.
    destruct (Req_dec_T (startTimestampRef s) 0); [reflexivity | contradiction].
  - intros Hne Hearly.
    assert (Hp : progressAt r timestamp s < 1).
    { rewrite progressAt_started by exact Hne.
      apply Hdiv in Hearly.
      unfold clamp01, Rmax, Rmin.
      destruct (Rle_dec 1 _); destruct (Rle_dec 0 _); lra. }
    destruct (animate_continues r timestamp s Hp)
      as (Ha & Hr & _ & Hs & Hq).
    repeat split; try assumption.
    rewrite Hs. unfold startOf.
    destruct (Req_dec_T (startTimestampRef s) 0); [contradiction | reflexivity].
  - intros Hne Hlate.
    assert (Hp : progressAt r timestamp s = 1).
    { rewrite progressAt_started by exact Hne.
      assert (~ (timestamp - startTimestampRef s) / r_duration r < 1)
        by (rewrite Hdiv; lra).
      unfold clamp01, Rmax, Rmin.
      destruct (Rle_dec 1 _); destruct (Rle_dec 0 _); lra. }
    destruct (animate_completes r timestamp s ltac:(lra))
      as (Ha & Hr & Hi & _ & Hs & _).
    repeat split; assumption.
  - apply clamp01_range.
  - intros Hne Hle. rewrite !progressAt_started by exact Hne.
    apply clamp01_monotone.
    unfold Rdiv. apply Rmult_le_compat_r; [| lra].
    left. apply Rinv_0_lt_compat. exact Hd.
Qed.

Lemma tick_ends_run_when_duration_elapsed_witness :
  let fresh := click bothLoaded initialEngine in
  let s := run [Click bothLoaded; Frame 16] initialEngine in
  let r := currentRender bothLoaded initialEngine in
  (progressAt r 16 fresh = 0 /\
   startTimestampRef (animate r 16 fresh) = 16 /\
   isAnimatingRef (animate r 16 fresh) = isAnimatingRef fresh /\
   activeIndex (animate r 16 fresh) = activeIndex fresh) /\
  (isAnimatingRef (animate r 716 s) = isAnimatingRef s /\
   activeIndex (animate r 716 s) = activeIndex s /\
   startTimestampRef (animate r 716 s) = startTimestampRef s /\
   rafQueue (animate r 716 s) = rafQueue s ++ [(S (rafCounter s), r)]) /\
  (progressAt r 1416 s = 1 /\
   isAnimatingRef (animate r 1416 s) = false /\
   isAnimating (animate r 1416 s) = false /\
   activeIndex (animate r 1416 s) = tr_to (transitionRef s) /\
   startTimestampRef (animate r 1416 s) = 0) /\
  progressAt r 716 s <= progressAt r 1416 s.
Proof.
  intros fresh s r.
  destruct sampleMidRun_facts as [_ Hstart]. fold s in Hstart.
  assert (Hd : 0 < r_duration r) by (cbn; lra).
  pose proof (tick_ends_run_when_duration_elapsed r 16 16 fresh Hd)
    as (Hfirst & _).
  pose proof (tick_ends_run_when_duration_elapsed r 716 1416 s Hd)
    as (_ & Hearly & _ & _ & Hmono).
  pose proof (tick_ends_run_when_duration_elapsed r 1416 1416 s Hd)
    as (_ & _ & Hlate & _).
  split; [apply Hfirst; reflexivity |].
  split; [apply Hearly; rewrite Hstart; cbn; lra |].
  split; [apply Hlate; rewrite Hstart; cbn; lra |].
  apply Hmono; [rewrite Hstart |]; lra.
Defined.

(** *** Ticks of a run in flight *)

Lemma run_app (events events' : list Event) (s : Engine) :
  run (events ++ events') s = run events' (run events s).
Proof. unfold run. apply fold_left_app. Qed.

Lemma midRun_tick (r : Render) (t0 : R) (a : nat) (t : R) (s : Engine) :
  0 < r_duration r -> t0 <> 0 ->
  midRun r t0 a s ->
  (t - t0 < r_duration r -> midRun r t0 a (frame t s)) /\
  (r_duration r <= t - t0 ->
   Idle (frame t s) /\ activeIndex (frame t s) = nextIndexOf a /\
   isAnimating (frame t s) = false).
Proof.
  intros Hd Ht0 (Hrun & [h Hq] & Hst & Htr & Hai).
  destruct (frame_single t _ _ _ Hq) as (-> & Hq' & Ha' & Hr' & Ht' & Hs' & _).
  remember (cancelAnimationFrame h s) as s' eqn:Es'. clear Es'.
  assert (Hne : startTimestampRef s' <> 0) by (rewrite Hs', Hst; exact Ht0).
  split.
  - intros Hearly.
    assert (Hp : progressAt r t s' < 1).
    { rewrite progressAt_started by exact Hne. rewrite Hs', Hst.
      assert ((t - t0) / r_duration r < 1).
      { apply (Rmult_lt_reg_r (r_duration r)); [exact Hd |].
        replace ((t - t0) / r_duration r * r_duration r) with (t - t0)
          by (field; lra).
        lra. }
      unfold clamp01, Rmax, Rmin.
      destruct (Rle_dec 1 _); destruct (Rle_dec 0 _); lra. }
    destruct (animate_continues r t s' Hp) as (Ea & Er & Et & Es & Eq).
    unfold midRun. rewrite Ea, Er, Et, Es, Eq, Hq', Ha', Hr', Ht'.
    split; [exact Hrun |].
    split; [eexists; reflexivity |].
    split.
    { unfold startOf.
      destruct (Req_dec_T (startTimestampRef s') 0); [contradiction |].
      rewrite Hs'. exact Hst. }
    split; assumption.
  - intros Hlate.
    assert (Hp : ~ progressAt r t s' < 1).
    { rewrite progressAt_started by exact Hne. rewrite Hs', Hst.
      assert (1 <= (t - t0) / r_duration r).
      { apply (Rmult_le_reg_r (r_duration r)); [exact Hd |].
        replace ((t - t0) / r_duration r * r_duration r) with (t - t0)
          by (field; lra).
        lra. }
      unfold clamp01, Rmax, Rmin.
      destruct (Rle_dec 1 _); destruct (Rle_dec 0 _); lra. }
    destruct (animate_completes r t s' Hp) as (Ea & Er & Ei & _ & Es & Eq).
    split; [unfold Idle; auto |].
    split; [| exact Ei].
    rewrite Ea, Ht', Htr. reflexivity.
Qed.

Lemma midRun_ticks (r : Render) (t0 : R) (a : nat) (ticks : list R) :
  0 < r_duration r -> t0 <> 0 ->
  Forall (fun t => t - t0 < r_duration r) ticks ->
  forall s : Engine,
    midRun r t0 a s -> midRun r t0 a (run (map Frame ticks) s).
Proof.
  intros Hd Ht0 Hticks.
  induction Hticks as [| t ticks Ht _ IH]; intros s Hmid; [exact Hmid |].
  cbn [map]. change (run (Frame t :: map Frame ticks) s)
    with (run (map Frame ticks) (frame t s)).
  apply IH. apply (midRun_tick r t0 a t s Hd Ht0 Hmid). exact Ht.
Qed.

Lemma first_tick_midRun (p : Props) (t0 : R) (s : Engine)
    (a b : HTMLImageElement) :
  Idle s ->
  slot (p_images p) (activeIndex s) = Some a ->
  slot (p_images p) (nextIndexOf (activeIndex s)) = Some b ->
  t0 <> 0 ->
  midRun (currentRender p s) t0 (activeIndex s)
    (run [Click p; Frame t0] s).
Proof.
  intros Hidle Ha Hb Ht0.
  unfold run; cbn [fold_left step].
  destruct (click_idle p s a b Hidle Ha Hb) as (Hr1 & Hs1 & Ht1 & Ha1 & Hq1).
  set (r := currentRender p s) in *.
  destruct (frame_single t0 _ _ _ Hq1)
    as (-> & Hq1' & Ha1' & Hr1' & Ht1' & Hs1' & _).
  remember (cancelAnimationFrame (S (rafCounter s)) (click p s)) as s1 eqn:E.
  clear E.
  assert (Hst : startTimestampRef s1 = 0) by (rewrite Hs1'; exact Hs1).
  assert (Hp : progressAt r t0 s1 < 1)
    by (rewrite progressAt_first by exact Hst; lra).
  destruct (animate_continues r t0 s1 Hp) as (Ea & Er & Et & Es & Eq).
  unfold midRun. rewrite Ea, Er, Et, Es, Eq, Hq1', Ha1', Hr1', Ht1'.
  split; [exact Hr1 |].
  split; [eexists; reflexivity |].
  split.
  { unfold startOf. rewrite Hst.
    destruct (Req_dec_T 0 0); [reflexivity | contradiction]. }
  split; assumption.
Qed.

(** ** One run at a time *)

Lemma tickInv_initial : tickInv initialEngine.
Proof. unfold tickInv; cbn. auto. Qed.

Lemma tickInv_fields (s s' : Engine) :
  schedulerFields s' = schedulerFields s -> tickInv s -> tickInv s'.
Proof.
  unfold schedulerFields, tickInv. intros E.
  injection E as -> -> -> -> -> -> _ ->. tauto.
Qed.

Lemma onlyCtx_schedulerFields (s s' : Engine) :
  onlyCtx s s' -> schedulerFields s' = schedulerFields s.
Proof. intros [c ->]. reflexivity. Qed.

Lemma resize_schedulerFields (w h dpr : R) (s : Engine) :
  schedulerFields (resize w h dpr s) = schedulerFields s.
Proof.
  unfold resize, ensureContext, emit.
  destruct s as [ai ia af st tr [cx |] vp iar rc rq]; reflexivity.
Qed.

Lemma ensureContext_schedulerFields (s : Engine) :
  schedulerFields (ensureContext s) = schedulerFields s.
Proof.
  unfold ensureContext. destruct (ctxRef s); reflexivity.
Qed.

Lemma handleResize_schedulerFields (p : Props) (w h dpr : R) (s : Engine) :
  schedulerFields (handleResize p w h dpr s) = schedulerFields s.
Proof.
  unfold handleResize.
  destruct (isAnimatingRef (resize w h dpr s)).
  - apply resize_schedulerFields.
  - rewrite (onlyCtx_schedulerFields _ _ (drawStatic_onlyCtx _ _)).
    apply resize_schedulerFields.
Qed.

Lemma rendered_schedulerFields (p : Props) (w h dpr : R) (s : Engine) :
  schedulerFields (rendered p w h dpr s) = schedulerFields (cancelAnimation s).
Proof.
  unfold rendered.
  destruct (isAnimatingRef _).
  - rewrite resize_schedulerFields. apply ensureContext_schedulerFields.
  - rewrite (onlyCtx_schedulerFields _ _ (drawStatic_onlyCtx _ _)).
    rewrite resize_schedulerFields. apply ensureContext_schedulerFields.
Qed.

Lemma cancelAnimation_tickInv (s : Engine) :
  tickInv s -> tickInv (cancelAnimation s).
Proof.
  unfold tickInv, cancelAnimation. intros [Hflag Hinv].
  destruct (isAnimatingRef s) eqn:Erun.
  - destruct Hinv as [(h & r & Hq & Href & _) | [Hq Href]].
    + rewrite Href. cbn. rewrite Erun, Hq. cbn. rewrite Nat.eqb_refl. cbn.
      auto.
    + rewrite Href, Erun. auto.
  - destruct Hinv as [Hq Hst].
    destruct (animationFrameRef s) as [[| h] |]; cbn; rewrite ?Erun, ?Hq;
      cbn; auto.
Qed.

Lemma startTransition_shape (r : Render) (s : Engine)
    (a b : HTMLImageElement) :
  isAnimatingRef s = false ->
  rafQueue s = [] ->
  slot (r_images r) (r_activeIndex r) = Some a ->
  slot (r_images r) (nextIndexOf (r_activeIndex r)) = Some b ->
  startTransition r s
  = mkEngine (activeIndex s) true (Some (S (rafCounter s))) 0
      (mkTransition (r_activeIndex r) (nextIndexOf (r_activeIndex r)))
      (ctxRef s) (viewportRef s) true (S (rafCounter s))
      [(S (rafCounter s), r)].
Proof.
  intros Hidle Hq Ha Hb. unfold startTransition, nextIndexOf in *.
  rewrite Hidle, Ha, Hb.
  destruct s as [ai ia [[| h] |] st tr cx vp iar rc rq];
    cbn in *; subst; reflexivity.
Qed.

Lemma click_tickInv (p : Props) (s : Engine) :
  tickInv s -> tickInv (click p s).
Proof.
  intros Hinv. unfold click.
  destruct (isAnimatingRef s) eqn:Erun.
  { rewrite startTransition_running by exact Erun. exact Hinv. }
  set (r := currentRender p s).
  destruct (slot (r_images r) (r_activeIndex r)) as [a |] eqn:Ea.
  2:{ rewrite startTransition_unresolved by (left; exact Ea). exact Hinv. }
  destruct (slot (r_images r) (nextIndexOf (r_activeIndex r))) as [b |] eqn:Eb.
  2:{ rewrite startTransition_unresolved by (right; exact Eb). exact Hinv. }
  pose proof Hinv as [_ Hidle]. rewrite Erun in Hidle.
  destruct Hidle as [Hq _].
  rewrite (startTransition_shape r s a b Erun Hq Ea Eb).
  unfold tickInv;
    cbn [isAnimating isAnimatingRef rafQueue animationFrameRef activeIndex
         transitionRef tr_from tr_to].
  split; [reflexivity |].
  left. exists (rafCounter s), r.
  split; [reflexivity |]. split; [reflexivity |].
  split; [reflexivity |]. split; [reflexivity |].
  split; [rewrite Ea | rewrite Eb]; discriminate.
Qed.

Lemma frame_tickInv (timestamp : R) (s : Engine) :
  tickInv s -> tickInv (frame timestamp s).
Proof.
  intros [Hflag Hinv].
  destruct (isAnimatingRef s) eqn:Erun.
  2:{ destruct Hinv as [Hq Hst]. unfold frame. rewrite Hq. cbn.
      unfold tickInv. rewrite Erun. auto. }
  destruct Hinv as [(h & r & Hq & Href & Hact & Hr & Hfrom & Hto) | [Hq Href]].
  2:{ unfold frame. rewrite Hq. cbn. unfold tickInv. rewrite Erun. auto. }
  destruct (frame_single timestamp _ _ _ Hq)
    as (-> & Hq' & Ha' & Hr' & Ht' & Hs' & Hc').
  assert (Href' : animationFrameRef (cancelAnimationFrame (S h) s)
                  = Some (S h)) by exact Href.
  assert (Hia' : isAnimating (cancelAnimationFrame (S h) s) = true)
    by exact Hflag.
  remember (cancelAnimationFrame (S h) s) as s' eqn:Es'. clear Es'.
  destruct (animate_shape r timestamp s') as [c [[_ ->] | [_ ->]]];
    unfold tickInv;
    cbn [isAnimating isAnimatingRef rafQueue animationFrameRef activeIndex
         transitionRef startTimestampRef].
  - rewrite Hia', Hr', Erun. split; [reflexivity |].
    left. exists (rafCounter s'), r. rewrite Hq', Ha', Ht'.
    repeat split; assumption.
  - rewrite Href', Hq'. cbn. auto.
Qed.

Lemma step_tickInv (s : Engine) (e : Event) :
  tickInv s -> tickInv (step s e).
Proof.
  intros Hinv. destruct e as [p | timestamp | p w h dpr | p w h dpr]; cbn.
  - apply click_tickInv, Hinv.
  - apply frame_tickInv, Hinv.
  - exact (tickInv_fields _ _ (handleResize_schedulerFields p w h dpr s) Hinv).
  - exact (tickInv_fields _ _ (rendered_schedulerFields p w h dpr s)
             (cancelAnimation_tickInv s Hinv)).
Qed.

Lemma run_tickInv (events : list Event) :
  forall s : Engine, tickInv s -> tickInv (run events s).
Proof.
  unfold run.
  induction events as [| e events IH]; intros s Hinv; cbn; [exact Hinv |].
  apply IH, step_tickInv, Hinv.
Qed.

(** *** A run whose tick was cancelled *)

Lemma resize_issued (w h dpr : R) (s : Engine) :
  issued (resize w h dpr s)
  = issued s ++ sizingOps w h (if Req_dec_T dpr 0 then 1 else dpr).
Proof.
  unfold resize, ensureContext, emit, issued, sizingOps.
  destruct s as [ai ia af st tr [cx |] vp iar rc rq]; reflexivity.
Qed.

Lemma sizingOps_sizing (w h dpr : R) :
  forallb isSizingOp (sizingOps w h dpr) = true.
Proof. reflexivity. Qed.

Lemma rendered_running (p : Props) (w h dpr : R) (s : Engine) :
  isAnimatingRef s = true ->
  rendered p w h dpr s = resize w h dpr (ensureContext (cancelAnimation s)) /\
  issued (rendered p w h dpr s)
  = issued s ++ sizingOps w h (if Req_dec_T dpr 0 then 1 else dpr).
Proof.
  intros Hrun.
  assert (Hs1 : isAnimatingRef (ensureContext (cancelAnimation s)) = true).
  { destruct (cancelAnimation_fields s) as (_ & _ & _ & Ec & _).
    unfold ensureContext.
    destruct (ctxRef (cancelAnimation s)); cbn; rewrite Ec; exact Hrun. }
  assert (Hs2 : isAnimatingRef
                  (resize w h dpr (ensureContext (cancelAnimation s))) = true).
  { destruct (resize_fields w h dpr (ensureContext (cancelAnimation s)))
      as (_ & _ & Er).
    rewrite Er. exact Hs1. }
  assert (E : rendered p w h dpr s
              = resize w h dpr (ensureContext (cancelAnimation s))).
  { unfold rendered. rewrite Hs2. reflexivity. }
  split; [exact E |].
  rewrite E, resize_issued. f_equal.
  destruct (cancelAnimation_fields s) as (_ & _ & _ & _ & _ & Ec & _).
  unfold issued, ensureContext. rewrite <- Ec.
  destruct (ctxRef (cancelAnimation s)) eqn:E1; [rewrite E1 |]; reflexivity.
Qed.

Lemma stalled_step (s : Engine) (e : Event) :
  stalled s ->
  stalled (step s e) /\
  schedulerFields (step s e) = schedulerFields s /\
  exists ops : list CanvasOp,
    issued (step s e) = issued s ++ ops /\ forallb isSizingOp ops = true.
Proof.
  intros (Hrun & Hq & Href).
  assert (Hkeep : forall s' : Engine,
            schedulerFields s' = schedulerFields s -> stalled s').
  { intros s' E. unfold schedulerFields in E.
    injection E as _ _ Ef _ _ Er _ Eq.
    unfold stalled. rewrite Ef, Er, Eq. auto. }
  destruct e as [p | timestamp | p w h dpr | p w h dpr]; cbn [step].
  - unfold click. rewrite startTransition_running by exact Hrun.
    split; [unfold stalled; auto |]. split; [reflexivity |].
    exists []. rewrite app_nil_r. auto.
  - unfold frame. rewrite Hq. cbn [runCallbacks].
    split; [unfold stalled; auto |]. split; [reflexivity |].
    exists []. rewrite app_nil_r. auto.
  - pose proof (handleResize_schedulerFields p w h dpr s) as E.
    split; [apply Hkeep, E |]. split; [exact E |].
    eexists. split; [| apply sizingOps_sizing].
    unfold handleResize.
    destruct (resize_fields w h dpr s) as (_ & _ & Er).
    rewrite Er, Hrun. apply resize_issued.
  - assert (Hc : cancelAnimation s = s)
      by (unfold cancelAnimation; rewrite Href; reflexivity).
    pose proof (rendered_schedulerFields p w h dpr s) as E.
    rewrite Hc in E.
    split; [apply Hkeep, E |]. split; [exact E |].
    eexists. split; [| apply sizingOps_sizing].
    apply (rendered_running p w h dpr s Hrun).
Qed.

Lemma stalled_run (events : list Event) :
  forall s : Engine,
    stalled s ->
    stalled (run events s) /\
    schedulerFields (run events s) = schedulerFields s /\
    exists ops : list CanvasOp,
      issued (run events s) = issued s ++ ops /\
      forallb isSizingOp ops = true.
Proof.
  unfold run.
  induction events as [| e events IH]; intros s Hst; cbn [fold_left].
  - split; [exact Hst |]. split; [reflexivity |].
    exists []. rewrite app_nil_r. auto.
  - destruct (stalled_step s e Hst) as (Hst' & Hf' & ops' & Hi' & Hs').
    destruct (IH (step s e) Hst') as (Hst'' & Hf'' & ops'' & Hi'' & Hs'').
    split; [exact Hst'' |].
    split; [rewrite Hf''; exact Hf' |].
    exists (ops' ++ ops''). rewrite Hi'', Hi', <- app_assoc.
    split; [reflexivity |].
    rewrite forallb_app, Hs', Hs''. reflexivity.
Qed.

Lemma rendered_stalls (p : Props) (w h dpr : R) (s : Engine) :
  tickInv s ->
  isAnimatingRef s = true ->
  stalled (rendered p w h dpr s) /\
  isAnimating (rendered p w h dpr s) = true /\
  activeIndex (rendered p w h dpr s) = activeIndex s /\
  transitionRef (rendered p w h dpr s) = transitionRef s.
Proof.
  intros Hinv Hrun.
  pose proof (cancelAnimation_tickInv s Hinv) as [Hflag Hc].
  destruct (cancelAnimation_fields s) as (Ea & Ei & Et & Er & _).
  rewrite Er, Hrun in Hc, Hflag.
  assert (Hq : rafQueue (cancelAnimation s) = [] /\
               animationFrameRef (cancelAnimation s) = None).
  { destruct Hinv as [_ Hinv]. rewrite Hrun in Hinv.
    unfold cancelAnimation.
    destruct Hinv as [(h0 & r & Hq & Href & _) | [Hq Href]].
    - rewrite Href. cbn. rewrite Hq. cbn. rewrite Nat.eqb_refl. cbn. auto.
    - rewrite Href. auto. }
  destruct Hq as [Hq Href].
  pose proof (rendered_schedulerFields p w h dpr s) as E.
  unfold schedulerFields in E.
  injection E as Ea' Ei' Ef' _ Et' Er' _ Eq'.
  unfold stalled.
  rewrite Ea', Ei', Ef', Et', Er', Eq', Er, Hrun, Hq, Href, Hflag, Ea, Et.
  auto.
Qed.

(** X11: in every state the engine can reach through clicks, display
    frames, resizes and renders, the [isAnimating] state shown to the page
    equals the [isAnimatingRef] guard; at most one tick is ever pending;
    while idle none is pending and the run-start timestamp is 0; and
    whenever a tick is pending the engine is running and
    [animationFrameRef] holds that tick's non-zero handle.  A running
    engine need not have a tick pending: a render in which [images] or
    [activeIndex] changed re-runs the mount effect, whose cleanup cancels
    the tick, so after such a render in mid-run the engine is still flagged
    as running with nothing pending and [animationFrameRef] cleared, and no
    later click, frame, resize or render changes any scheduler field: the
    run never completes and [activeIndex] is never committed. *)
Theorem one_run_at_a_time
    (events later : list Event) (p : Props) (w h dpr : R) :
  let s := run events initialEngine in
  isAnimating s = isAnimatingRef s /\
  (List.length (rafQueue s) <= 1)%nat /\
  (isAnimatingRef s = false ->
   rafQueue s = [] /\ startTimestampRef s = 0) /\
  (rafQueue s <> [] ->
   isAnimatingRef s = true /\
   exists (h : nat) (r : Render),
     rafQueue s = [(S h, r)] /\ animationFrameRef s = Some (S h)) /\
  (isAnimatingRef s = true ->
   let s' := rendered p w h dpr s in
   isAnimatingRef s' = true /\
   isAnimating s' = true /\
   rafQueue s' = [] /\
   animationFrameRef s' = None /\
   activeIndex s' = activeIndex s /\
   transitionRef s' = transitionRef s /\
   schedulerFields (run later s') = schedulerFields s').
Proof.
  intros s.
  pose proof (run_tickInv events initialEngine tickInv_initial) as Hinv.
  fold s in Hinv.
  pose proof Hinv as [Hflag Hcase].
  split; [exact Hflag |].
  split; [| split; [| split]].
  - destruct (isAnimatingRef s).
    + destruct Hcase as [(h0 & r & Hq & _) | [Hq _]]; rewrite Hq; cbn; lia.
    + destruct Hcase as [Hq _]. rewrite Hq. cbn. lia.
  - intros Hidle. rewrite Hidle in Hcase. exact Hcase.
  - intros Hne. destruct (isAnimatingRef s).
    + destruct Hcase as [(h0 & r & Hq & Href & _) | [Hq _]]; [| congruence].
      split; [reflexivity |]. exists h0, r. auto.
    + destruct Hcase as [Hq _]. congruence.
  - intros Hrun s'.
    destruct (rendered_stalls p w h dpr s Hinv Hrun)
      as (Hst & Hia & Hai & Htr).
    destruct (stalled_run later s' Hst) as (_ & Hfields & _).
    destruct Hst as (Hr' & Hq' & Hf').
    repeat split; assumption.
Qed.

Lemma sampleMidRun_idle_after :
  isAnimatingRef
    (run [Click bothLoaded; Frame 16; Frame (16 + 1400)] initialEngine) = false.
Proof.
  change (run [Click bothLoaded; Frame 16; Frame (16 + 1400)] initialEngine)
    with (completedRun bothLoaded 16 initialEngine).
  assert (Hidle : Idle initialEngine) by (repeat split).
  destruct (completedRun_flips bothLoaded 16 initialEngine
              (sampleImage "a.png") (sampleImage "b.png")
              Hidle eq_refl eq_refl ltac:(cbn; lra) ltac:(lra))
    as [[Hr _] _].
  exact Hr.
Qed.

Lemma sampleMidRun_pending :
  exists h : nat,
    rafQueue (run [Click bothLoaded; Frame 16] initialEngine)
    = [(h, currentRender bothLoaded initialEngine)].
Proof.
  assert (Hidle : Idle initialEngine) by (repeat split).
  destruct (first_tick_midRun bothLoaded 16 initialEngine
              (sampleImage "a.png") (sampleImage "b.png")
              Hidle eq_refl eq_refl ltac:(lra))
    as (_ & Hq & _).
  exact Hq.
Qed.

Lemma one_run_at_a_time_witness :
  let s := run [Click bothLoaded; Frame 16] initialEngine in
  let idle := run [Click bothLoaded; Frame 16; Frame (16 + 1400)] initialEngine in
  let s' := rendered secondMissing 400 300 2 s in
  (rafQueue idle = [] /\ startTimestampRef idle = 0) /\
  (isAnimatingRef s = true /\
   exists (h : nat) (r : Render),
     rafQueue s = [(S h, r)] /\ animationFrameRef s = Some (S h)) /\
  (isAnimatingRef s' = true /\
   isAnimating s' = true /\
   rafQueue s' = [] /\
   animationFrameRef s' = None /\
   activeIndex s' = activeIndex s /\
   transitionRef s' = transitionRef s /\
   schedulerFields (run [Frame 32; Click bothLoaded; Frame 3000] s')
   = schedulerFields s').
Proof.
  intros s idle s'.
  destruct sampleMidRun_facts as [Hrun _].
  destruct sampleMidRun_pending as [h Hq].
  pose proof (one_run_at_a_time [Click bothLoaded; Frame 16]
                [Frame 32; Click bothLoaded; Frame 3000] secondMissing 400 300 2)
    as (_ & _ & _ & Hpending & Hstall).
  pose proof (one_run_at_a_time
                [Click bothLoaded; Frame 16; Frame (16 + 1400)]
                [] secondMissing 400 300 2)
    as (_ & _ & Hidle & _).
  split; [apply Hidle; exact sampleMidRun_idle_after |].
  split; [apply Hpending; rewrite Hq; discriminate |].
  apply Hstall. exact Hrun.
Defined.

(** X12: in every reachable state, a tick that is pending belongs to the
    render that started the current run: the engine is running, the tick's
    captured [activeIndex] is the pair's [from], which is also the engine's
    [activeIndex], and its captured [images] hold an image at both [from]
    and [to].  The frames a run draws are therefore drawn from the two
    images present at the trigger, whatever [images] later renders
    receive. *)
Theorem run_draws_from_trigger_images
    (events : list Event) (h : nat) (r : Render) :
  let s := run events initialEngine in
  In (h, r) (rafQueue s) ->
  isAnimatingRef s = true /\
  rafQueue s = [(h, r)] /\
  activeIndex s = tr_from (transitionRef s) /\
  r_activeIndex r = tr_from (transitionRef s) /\
  exists fromImage toImage : HTMLImageElement,
    slot (r_images r) (tr_from (transitionRef s)) = Some fromImage /\
    slot (r_images r) (tr_to (transitionRef s)) = Some toImage.
Proof.
  intros s Hin.
  pose proof (run_tickInv events initialEngine tickInv_initial) as [_ Hinv].
  fold s in Hinv.
  destruct (isAnimatingRef s).
  - destruct Hinv as [(h' & r' & Hq & _ & Hact & Hr & Hfrom & Hto) | [Hq _]].
    + rewrite Hq in Hin. destruct Hin as [E | []].
      injection E as <- <-.
      destruct (slot (r_images r') (tr_from (transitionRef s))) as [a |] eqn:Ea;
        [| congruence].
      destruct (slot (r_images r') (tr_to (transitionRef s))) as [b |] eqn:Eb;
        [| congruence].
      repeat split; try assumption. exists a, b. auto.
    + rewrite Hq in Hin. destruct Hin.
  - destruct Hinv as [Hq _]. rewrite Hq in Hin. destruct Hin.
Qed.

Lemma run_draws_from_trigger_images_witness :
  let s := run [Click bothLoaded; Frame 16] initialEngine in
  exists (h : nat) (r : Render),
    isAnimatingRef s = true /\
    rafQueue s = [(h, r)] /\
    activeIndex s = tr_from (transitionRef s) /\
    r_activeIndex r = tr_from (transitionRef s) /\
    exists fromImage toImage : HTMLImageElement,
      slot (r_images r) (tr_from (transitionRef s)) = Some fromImage /\
      slot (r_images r) (tr_to (transitionRef s)) = Some toImage.
Proof.
  intros s.
  destruct sampleMidRun_pending as [h Hq]. fold s in Hq.
  exists h, (currentRender bothLoaded initialEngine).
  apply (run_draws_from_trigger_images [Click bothLoaded; Frame 16]).
  fold s. rewrite Hq. left. reflexivity.
Defined.

(** ** Teardown and resize *)

(** X13: from any reachable state, the unmount cleanup leaves no tick
    pending, so later display frames change nothing; it does not touch
    [activeIndex], the recorded pair or the canvas, and after a run was in
    flight [animationFrameRef] is cleared: the transition is abandoned
    without being committed. *)
Theorem unmount_cancels_pending_tick (events : list Event) (timestamp : R) :
  let s := run events initialEngine in
  rafQueue (unmount s) = [] /\
  frame timestamp (unmount s) = unmount s /\
  activeIndex (unmount s) = activeIndex s /\
  transitionRef (unmount s) = transitionRef s /\
  ctxRef (unmount s) = ctxRef s /\
  (isAnimatingRef s = true -> animationFrameRef (unmount s) = None).
Proof.
  intros s.
  pose proof (run_tickInv events initialEngine tickInv_initial) as [_ Hinv].
  fold s in Hinv.
  destruct (cancelAnimation_fields s) as (Ha & _ & Ht & _ & _ & Hc & _).
  assert (Hq : rafQueue (unmount s) = [] /\
               (isAnimatingRef s = true ->
                animationFrameRef (unmount s) = None)).
  { unfold unmount, cancelAnimation.
    destruct (isAnimatingRef s).
    - destruct Hinv as [(h & r & Hq & Href & _) | [Hq Href]].
      + rewrite Href. cbn. rewrite Hq. cbn. rewrite Nat.eqb_refl. cbn. auto.
      + rewrite Href. auto.
    - destruct Hinv as [Hq _].
      split; [| discriminate].
      destruct (animationFrameRef s) as [[| h] |]; cbn; rewrite Hq;
        reflexivity. }
  destruct Hq as [Hq Href].
  split; [exact Hq |].
  split; [unfold frame; rewrite Hq; reflexivity |].
  unfold unmount. auto.
Qed.

Lemma unmount_cancels_pending_tick_witness :
  let s := run [Click bothLoaded; Frame 16] initialEngine in
  animationFrameRef (unmount s) = None.
Proof.
  intros s.
  apply (proj2 (proj2 (proj2 (proj2 (proj2
           (unmount_cancels_pending_tick [Click bothLoaded; Frame 16] 32)))))).
  exact (proj1 sampleMidRun_facts).
Defined.

(** X14: a window resize never disturbs the scheduler: flags, pair,
    run-start timestamp, [activeIndex] and the pending tick are as before,
    whether or not the static image is redrawn.  It records the measured
    size as the viewport, with the device pixel ratio (1 when that ratio is
    0), and while a run is in flight the only calls it issues are these
    three, in this order: the backing store is set to
    [max(1, round(width * dpr))] by [max(1, round(height * dpr))], the
    transform is reset, and the context is scaled by [dpr] on both axes.
    The next tick then draws on the new viewport. *)
Theorem resize_keeps_run_going
    (p : Props) (w h dpr : R) (s : Engine) :
  let s' := handleResize p w h dpr s in
  let d := vp_dpr (viewportRef s') in
  schedulerFields s' = schedulerFields s /\
  vp_width (viewportRef s') = w /\
  vp_height (viewportRef s') = h /\
  (dpr <> 0 -> d = dpr) /\
  (dpr = 0 -> d = 1) /\
  (isAnimatingRef s = true ->
   ctxRef s'
   = Some (match ctxRef s with Some ctx => ctx | None => [] end
           ++ [ SetCanvasSize (Rmax 1 (round (w * d))) (Rmax 1 (round (h * d)));
                ResetTransform;
                Scale d d ])).
Proof.
  intros s'. cbv zeta.
  split; [apply handleResize_schedulerFields |].
  assert (Hvp : viewportRef s' = viewportRef (resize w h dpr s)).
  { unfold s', handleResize.
    destruct (isAnimatingRef (resize w h dpr s)); [reflexivity |].
    destruct (drawStatic_onlyCtx (currentRender p s) (resize w h dpr s))
      as [c ->].
    reflexivity. }
  rewrite Hvp.
  assert (Hres : viewportRef (resize w h dpr s)
                 = mkViewport w h (if Req_dec_T dpr 0 then 1 else dpr)).
  { unfold resize, ensureContext, emit.
    destruct s as [ai ia af st tr [cx |] vp iar rc rq]; reflexivity. }
  rewrite Hres. cbn [vp_width vp_height vp_dpr].
  split; [reflexivity |]. split; [reflexivity |].
  split; [intros Hne; destruct (Req_dec_T dpr 0); [contradiction | reflexivity] |].
  split; [intros ->; destruct (Req_dec_T 0 0); [reflexivity | contradiction] |].
  intros Hrun. unfold s', handleResize.
  assert (Hrun' : isAnimatingRef (resize w h dpr s) = true).
  { destruct (resize_fields w h dpr s) as (_ & _ & Er).
    rewrite Er. exact Hrun. }
  rewrite Hrun'.
  unfold resize, ensureContext, emit.
  destruct s as [ai ia af st tr [cx |] vp iar rc rq]; reflexivity.
Qed.

Lemma resize_keeps_run_going_witness :
  let s := set_isAnimatingRef true (mountedEngine 400 300) in
  let s' := handleResize bothLoaded 640 480 2 s in
  let d := vp_dpr (viewportRef s') in
  d = 2 /\
  vp_dpr (viewportRef (handleResize bothLoaded 640 480 0 s)) = 1 /\
  ctxRef s'
  = Some (match ctxRef s with Some ctx => ctx | None => [] end
          ++ [ SetCanvasSize (Rmax 1 (round (640 * d)))
                             (Rmax 1 (round (480 * d)));
               ResetTransform;
               Scale d d ]).
Proof.
  intros s s'.
  pose proof (resize_keeps_run_going bothLoaded 640 480 2 s)
    as (_ & _ & _ & Hdpr & _ & Hops).
  pose proof (resize_keeps_run_going bothLoaded 640 480 0 s)
    as (_ & _ & _ & _ & Hzero & _).
  split; [apply Hdpr; lra |].
  split; [apply Hzero; reflexivity |].
  apply Hops. reflexivity.
Defined.

(** ** Object URLs *)

Lemma url_set_accounting (l : list string) :
  forall (i : nat) (u : string),
    Permutation
      (filter truthy [urlAt l i] ++ filter truthy (url_set l i u))
      (filter truthy l ++ filter truthy [u]).
Proof.
  unfold urlAt.
  induction l as [| x rest IH]; intros i u.
  - induction i as [| i IHi]; cbn [nth url_set].
    + cbn. apply Permutation_refl.
    + replace (nth i [] ""%string) with ""%string in IHi
        by (destruct i; reflexivity).
      cbn [filter truthy app] in *. exact IHi.
  - destruct i as [| i]; cbn [nth url_set].
    + cbn [filter]. destruct (truthy x); destruct (truthy u); cbn [app].
      * apply perm_skip. apply Permutation_cons_append.
      * rewrite app_nil_r. apply Permutation_refl.
      * apply Permutation_cons_append.
      * rewrite app_nil_r. apply Permutation_refl.
    + specialize (IH i u).
      cbn [filter] in *. destruct (truthy x); [| exact IH].
      cbn [app].
      eapply Permutation_trans; [apply Permutation_sym, Permutation_middle |].
      apply perm_skip. exact IH.
Qed.

Lemma url_set_lookup (l : list string) :
  forall (i j : nat) (u : string),
    urlAt (url_set l i u) j = if Nat.eqb j i then u else urlAt l j.
Proof.
  unfold urlAt.
  induction l as [| x rest IH]; intros i.
  - induction i as [| i IHi]; intros [| j] u; cbn; try reflexivity.
    + destruct j; reflexivity.
    + rewrite IHi. destruct (Nat.eqb j i); [reflexivity |].
      destruct j; reflexivity.
  - destruct i as [| i]; intros [| j] u; cbn; try reflexivity.
    apply IH.
Qed.

Lemma setUrl_accounting (i : nat) (u : string) (m : UrlManager) :
  Permutation
    (revokedUrls (setUrl i u m) ++ liveUrls (setUrl i u m))
    ((revokedUrls m ++ liveUrls m) ++ filter truthy [u]).
Proof.
  pose proof (url_set_accounting (urls m) i u) as H.
  unfold setUrl, liveUrls.
  cbn [filter] in H.
  destruct (truthy (urlAt (urls m) i)); cbn [urls revokedUrls] in *.
  - rewrite <- !app_assoc. apply Permutation_app_head. exact H.
  - rewrite <- !app_assoc. apply Permutation_app_head. exact H.
Qed.

Lemma setUrls_accounting (calls : list (nat * string)) :
  forall m : UrlManager,
    Permutation
      (revokedUrls (setUrls calls m) ++ liveUrls (setUrls calls m))
      ((revokedUrls m ++ liveUrls m) ++ filter truthy (map snd calls)).
Proof.
  unfold setUrls.
  induction calls as [| [i u] calls IH]; intros m; cbn [fold_left map].
  - cbn. rewrite app_nil_r. apply Permutation_refl.
  - eapply Permutation_trans; [apply IH |].
    cbn [fst snd].
    eapply Permutation_trans;
      [apply Permutation_app_tail, setUrl_accounting |].
    rewrite <- app_assoc.
    apply Permutation_app_head.
    cbn [filter]. destruct (truthy u); apply Permutation_refl.
Qed.

Lemma revoke_each (l : list string) :
  forall m : UrlManager,
    let m' :=
      fold_left
        (fun m url =>
           if truthy url then mkUrls (urls m) (revokedUrls m ++ [url]) else m)
        l m in
    revokedUrls m' = revokedUrls m ++ filter truthy l /\ urls m' = urls m.
Proof.
  induction l as [| u l IH]; intros m; cbn [fold_left filter].
  - rewrite app_nil_r. auto.
  - destruct (truthy u).
    + destruct (IH (mkUrls (urls m) (revokedUrls m ++ [u]))) as [Hr Hu].
      cbv zeta. rewrite Hr, Hu. cbn. rewrite <- app_assoc. auto.
    + apply IH.
Qed.

Lemma revokeAll_revoked (m : UrlManager) :
  revokedUrls (revokeAll m) = revokedUrls m ++ liveUrls m /\
  urls (revokeAll m) = urls m.
Proof. apply (revoke_each (urls m) m). Qed.

Lemma NoDup_app_disjoint {A : Type} (a b : list A) (x : A) :
  NoDup (a ++ b) -> In x a -> ~ In x b.
Proof.
  induction a as [| y a IH]; intros Hnd Hin; [destruct Hin |].
  cbn in Hnd. inversion Hnd as [| ? ? Hnotin Hnd']; subst.
  destruct Hin as [-> | Hin].
  - intros Hb. apply Hnotin. apply in_or_app. right. exact Hb.
  - apply IH; assumption.
Qed.

(** X15: however [setUrl] is called, every non-empty URL handed to it is
    at any moment either the one held for some slot or has been revoked
    once, never both counts and never lost; [setUrl] makes the new URL
    the one held for its slot and leaves the other slots' URLs alone; and
    after the unmount cleanup every such URL has been revoked exactly
    once.  When the URLs handed in are distinct, a URL still held is never
    one that was revoked. *)
Theorem object_urls_revoked_exactly_once
    (calls : list (nat * string)) (i j : nat) (u : string) :
  let m := setUrls calls initialUrls in
  Permutation (revokedUrls m ++ liveUrls m) (filter truthy (map snd calls)) /\
  Permutation (revokedUrls (revokeAll m)) (filter truthy (map snd calls)) /\
  urlAt (urls (setUrl i u m)) i = u /\
  (j <> i -> urlAt (urls (setUrl i u m)) j = urlAt (urls m) j) /\
  (NoDup (filter truthy (map snd calls)) ->
   In u (liveUrls m) -> ~ In u (revokedUrls m)).
Proof.
  intros m.
  pose proof (setUrls_accounting calls initialUrls) as Hacc.
  fold m in Hacc. cbn [initialUrls revokedUrls liveUrls urls filter truthy app]
    in Hacc.
  split; [exact Hacc |].
  split.
  { destruct (revokeAll_revoked m) as [-> _]. exact Hacc. }
  assert (Hurls : urls (setUrl i u m) = url_set (urls m) i u).
  { unfold setUrl. destruct (truthy _); reflexivity. }
  rewrite Hurls.
  split; [rewrite url_set_lookup, Nat.eqb_refl; reflexivity |].
  split.
  { intros Hne. rewrite url_set_lookup.
    destruct (Nat.eqb_spec j i); [contradiction | reflexivity]. }
  intros Hnd Hlive Hrev.
  apply (Permutation_NoDup (Permutation_sym Hacc)) in Hnd.
  exact (NoDup_app_disjoint _ _ u Hnd Hrev Hlive).
Qed.

Lemma object_urls_revoked_exactly_once_witness :
  let calls := [(0%nat, "blob:1"%string); (1%nat, "blob:2"%string);
                (0%nat, "blob:3"%string)] in
  let m := setUrls calls initialUrls in
  urlAt (urls (setUrl 1 "blob:4" m)) 0 = urlAt (urls m) 0 /\
  ~ In "blob:3"%string (revokedUrls m).
Proof.
  intros calls m.
  pose proof (object_urls_revoked_exactly_once calls 1 0 "blob:4")
    as (_ & _ & _ & Hother & _).
  pose proof (object_urls_revoked_exactly_once calls 1 0 "blob:3")
    as (_ & _ & _ & _ & Hsafe).
  split.
  - apply Hother. lia.
  - apply Hsafe.
    + cbn. repeat constructor; cbn; intuition discriminate.
    + cbn. left. reflexivity.
Defined.

(** ** Loading round trip *)

Lemma completeAll_slot (size : string -> R * R) (srcs : list string) :
  forall (k : nat) (st : AssetState) (j : nat),
    slot (images
            (completeAll size
               (map (fun entry => mkLoad (fst entry) (snd entry))
                  (combine (seq k (List.length srcs)) srcs)) st)) j
    = match (if Nat.leb k j then nth_error srcs (j - k) else None) with
      | Some src => Some (mkImage src (fst (size src)) (snd (size src)))
      | None => slot (images st) j
      end.
Proof.
  unfold completeAll.
  induction srcs as [| s0 srcs IH]; intros k st j; cbn [List.length seq combine map fold_left].
  - destruct (Nat.leb k j); [destruct (j - k)%nat |]; reflexivity.
  - rewrite IH.
    destruct (Nat.leb_spec (S k) j) as [Hlt | Hge].
    + replace (Nat.leb k j) with true by (symmetry; apply Nat.leb_le; lia).
      replace (j - k)%nat with (S (j - S k)) by lia.
      cbn [nth_error].
      destruct (nth_error srcs (j - S k)); [reflexivity |].
      unfold onload; cbn [images setImages load_index fst snd].
      apply slot_array_set_other. lia.
    + unfold onload; cbn [images setImages load_index load_src fst snd].
      destruct (Nat.leb_spec k j) as [Hle | Hlt].
      * assert (j = k) by lia. subst j.
        rewrite Nat.sub_diag. cbn [nth_error].
        apply slot_array_set_same.
      * apply slot_array_set_other. lia.
Qed.

(** X16: one run of the loading effect adds exactly one outstanding load
    per source, in source order, after those already outstanding; and once
    the loads of that run have all completed, each slot that has a source
    holds the image of that source with the size the host decoded, while
    slots beyond the sources keep what they had. *)
Theorem loads_of_a_run_fill_their_slots
    (size : string -> R * R) (sources : list string) (st : AssetState)
    (i : nat) (src : string) :
  let st' := useLoadedImages_effect sources st in
  let done := completeAll size (loadsOf sources) st' in
  pending st' = pending st ++ loadsOf sources /\
  List.length (loadsOf sources) = List.length sources /\
  (nth_error sources i = Some src ->
   slot (images st') i = None /\
   nth_error (loadsOf sources) i = Some (mkLoad i src) /\
   slot (images done) i
   = Some (mkImage src (fst (size src)) (snd (size src)))) /\
  ((List.length sources <= i)%nat ->
   slot (images done) i = slot (images st) i).
Proof.
  intros st' done.
  split; [apply fold_startLoad_pending |].
  split.
  { unfold loadsOf, indexed.
    rewrite length_map, length_combine, length_seq. apply Nat.min_id. }
  assert (Hdone : forall j,
    slot (images done) j
    = match nth_error sources j with
      | Some s => Some (mkImage s (fst (size s)) (snd (size s)))
      | None => slot (images st') j
      end).
  { intros j. unfold done, loadsOf, indexed.
    rewrite completeAll_slot. cbn [Nat.leb]. rewrite Nat.sub_0_r.
    reflexivity. }
  split.
  - intros Hsrc.
    assert (Hi : (i < List.length sources)%nat)
      by (apply nth_error_Some; congruence).
    split.
    { unfold st', useLoadedImages_effect.
      rewrite fold_startLoad_slot, indexed_covers by exact Hi. reflexivity. }
    split.
    { unfold loadsOf, indexed. rewrite nth_error_map.
      rewrite (nth_error_combine _ _ i i src);
        [reflexivity | rewrite nth_error_seq_lt by exact Hi; reflexivity
        | exact Hsrc]. }
    rewrite Hdone, Hsrc. reflexivity.
  - intros Hi.
    assert (Hnone : nth_error sources i = None) by (apply nth_error_None; exact Hi).
    rewrite Hdone, Hnone.
    unfold st', useLoadedImages_effect. rewrite fold_startLoad_slot.
    destruct (existsb _ (indexed sources)) eqn:Ex; [| reflexivity].
    exfalso. apply existsb_exists in Ex.
    destruct Ex as ([k s0] & Hin & Heq). cbn in Heq.
    apply Nat.eqb_eq in Heq. subst k.
    unfold indexed in Hin. apply in_combine_l in Hin.
    apply in_seq in Hin. lia.
Qed.

Lemma loads_of_a_run_fill_their_slots_witness :
  let size := fun _ : string => (640, 480) in
  let st' := useLoadedImages_effect DEFAULT_SOURCES initialAssets in
  let done := completeAll size (loadsOf DEFAULT_SOURCES) st' in
  (slot (images st') 1 = None /\
   nth_error (loadsOf DEFAULT_SOURCES) 1
   = Some (mkLoad 1 "/default-second.svg") /\
   slot (images done) 1 = Some (mkImage "/default-second.svg" 640 480)) /\
  slot (images done) 5 = slot (images initialAssets) 5.
Proof.
  intros size st' done.
  pose proof (loads_of_a_run_fill_their_slots size DEFAULT_SOURCES
                initialAssets 1 "/default-second.svg")
    as (_ & _ & Hfill & _).
  pose proof (loads_of_a_run_fill_their_slots size DEFAULT_SOURCES
                initialAssets 5 "")
    as (_ & _ & _ & Hbeyond).
  split.
  - apply Hfill. reflexivity.
  - apply Hbeyond. cbn. lia.
Defined.

(** ** A whole run *)

(** X17: a run ticked at any timestamps.  From an idle engine whose two
    images are present, after the click and a first frame at a non-zero
    timestamp [t0], the run stays in flight -- same pair, same
    [activeIndex], one pending tick -- through every frame that comes less
    than one duration after [t0], however many there are; the first frame
    at least one duration after [t0] ends it, leaving the engine idle with
    [activeIndex] moved to the other slot and [isAnimating] false. *)
Theorem run_lasts_one_duration
    (p : Props) (t0 : R) (ticks : list R) (tEnd : R) (s : Engine) :
  Idle s ->
  slot (p_images p) (activeIndex s) <> None ->
  slot (p_images p) (nextIndexOf (activeIndex s)) <> None ->
  0 < p_duration p ->
  t0 <> 0 ->
  Forall (fun t => t - t0 < p_duration p) ticks ->
  p_duration p <= tEnd - t0 ->
  let during := run ([Click p; Frame t0] ++ map Frame ticks) s in
  let after := run ([Click p; Frame t0] ++ map Frame ticks ++ [Frame tEnd]) s in
  isAnimatingRef during = true /\
  List.length (rafQueue during) = 1%nat /\
  activeIndex during = activeIndex s /\
  transitionRef during
  = mkTransition (activeIndex s) (nextIndexOf (activeIndex s)) /\
  Idle after /\
  isAnimating after = false /\
  activeIndex after = nextIndexOf (activeIndex s).
Proof.
  intros Hidle Hfrom Hto Hd Ht0 Hticks Hend during after.
  destruct (slot (p_images p) (activeIndex s)) as [a |] eqn:Ea;
    [| congruence].
  destruct (slot (p_images p) (nextIndexOf (activeIndex s))) as [b |] eqn:Eb;
    [| congruence].
  pose proof (first_tick_midRun p t0 s a b Hidle Ea Eb Ht0) as Hmid.
  set (r := currentRender p s) in *.
  assert (Hdr : 0 < r_duration r) by exact Hd.
  pose proof (midRun_ticks r t0 (activeIndex s) ticks Hdr Ht0 Hticks _ Hmid)
    as Hmid'.
  rewrite <- run_app in Hmid'. fold during in Hmid'.
  assert (Hafter : after = frame tEnd during).
  { unfold after, during. rewrite app_assoc, run_app. reflexivity. }
  destruct (midRun_tick r t0 (activeIndex s) tEnd during Hdr Ht0 Hmid')
    as [_ Hdone].
  destruct (Hdone Hend) as (Hidle' & Hai' & Hia').
  destruct Hmid' as (Hrun & [h Hq] & _ & Htr & Hai).
  rewrite Hafter.
  split; [exact Hrun |].
  split; [rewrite Hq; reflexivity |].
  auto.
Qed.

Lemma run_lasts_one_duration_witness :
  let s := mountedEngine 400 300 in
  let during :=
    run ([Click bothLoaded; Frame 16] ++ map Frame [33; 700; 1415]) s in
  let after :=
    run ([Click bothLoaded; Frame 16] ++ map Frame [33; 700; 1415]
         ++ [Frame 1432]) s in
  isAnimatingRef during = true /\
  List.length (rafQueue during) = 1%nat /\
  activeIndex during = activeIndex s /\
  transitionRef during
  = mkTransition (activeIndex s) (nextIndexOf (activeIndex s)) /\
  Idle after /\
  isAnimating after = false /\
  activeIndex after = nextIndexOf (activeIndex s).
Proof.
  intros s.
  apply (run_lasts_one_duration bothLoaded 16 [33; 700; 1415] 1432 s).
  - repeat split.
  - discriminate.
  - discriminate.
  - cbn. lra.
  - lra.
  - repeat constructor; cbn; lra.
  - cbn. lra.
Defined.

(** ** Layers of a frame *)

(** X18: on a viewport with non-zero sides and with both images present,
    one transition frame issues, in this order: the clear and the from
    image; a saved block that clips to the silhouette path and draws the
    to image; a saved block that traces the very same path again and fills
    it at opacity [0.75 + 0.15 * (1 - progress)]; then the feather
    overlay.  For a progress in [0, 1] that opacity lies in [0.75, 0.9],
    and the path is the one through the 25 placed points. *)
Theorem drawFrame_layers
    (r : Render) (progress : R) (s : Engine) (ctx : Ctx)
    (fromImage toImage : HTMLImageElement) :
  ctxRef s = Some ctx ->
  vp_width (viewportRef s) <> 0 ->
  vp_height (viewportRef s) <> 0 ->
  slot (r_images r) (tr_from (transitionRef s)) = Some fromImage ->
  slot (r_images r) (tr_to (transitionRef s)) = Some toImage ->
  0 <= progress <= 1 ->
  let width := vp_width (viewportRef s) in
  let height := vp_height (viewportRef s) in
  drawFrame r progress s
  = set_ctxRef
      (Some (ctx ++ frameLayers fromImage toImage (r_featherSeeds r)
                      progress width height)) s /\
  0.75 <= 0.75 + 0.15 * (1 - progress) <= 0.9 /\
  pathVertices
    (traceRavenPath (points (computeRavenGeometry width height progress)))
  = points (computeRavenGeometry width height progress) /\
  List.length (points (computeRavenGeometry width height progress)) = 25%nat.
Proof.
  intros Hctx Hw Hh Hfrom Hto Hp. cbv zeta.
  split.
  - unfold drawFrame. rewrite Hctx, Hfrom, Hto.
    destruct (Req_dec_T _ 0); [contradiction |].
    destruct (Req_dec_T _ 0); [contradiction |].
    rewrite (emit_ctx _ s ctx Hctx), !emit_set.
    unfold frameLayers. rewrite <- !app_assoc. reflexivity.
  - split; [lra |].
    split; [| reflexivity].
    destruct (points _) as [| [x y] rest]; cbn; [reflexivity |].
    rewrite pathVertices_lines. cbn. rewrite app_nil_r. reflexivity.
Qed.

Lemma drawFrame_layers_witness :
  let s := mountedEngine 400 300 in
  let r := currentRender bothLoaded s in
  exists ctx : Ctx,
    drawFrame r 0.5 s
    = set_ctxRef
        (Some (ctx ++ frameLayers (sampleImage "a.png") (sampleImage "b.png")
                        generateFeatherSeeds 0.5 400 300)) s.
Proof.
  intros s r.
  assert (Hctx : exists ctx, ctxRef s = Some ctx) by (eexists; reflexivity).
  destruct Hctx as [ctx Hctx]. exists ctx.
  apply (drawFrame_layers r 0.5 s ctx (sampleImage "a.png")
           (sampleImage "b.png") Hctx).
  - cbn. lra.
  - cbn. lra.
  - reflexivity.
  - reflexivity.
  - lra.
Defined.

(** ** Missing images and renders in mid-run *)

(** C10: when the from-slot or the to-slot image of the current transition
    is absent, the transition-frame draw returns the engine untouched for
    every progress: the surface is neither cleared nor filled.  And when a
    render with changed images (for instance after a source was replaced)
    arrives while a run is in flight, the mount effect is re-run: the
    pending tick is cancelled and the canvas is sized again, nothing is
    drawn; from then on, whatever clicks, frames, resizes and renders
    follow, the engine stays flagged as running with no tick pending and
    the only calls issued on the context are canvas sizing calls.  So no
    placeholder frame -- indeed no frame at all -- appears during that
    run. *)
Theorem drawFrame_skips_when_image_absent
    (r : Render) (p : Props) (progress : R) (s : Engine)
    (events later : list Event) (w h dpr : R) :
  (slot (r_images r) (tr_from (transitionRef s)) = None \/
   slot (r_images r) (tr_to (transitionRef s)) = None ->
   drawFrame r progress s = s /\ ctxRef (drawFrame r progress s) = ctxRef s)
  /\
  (let running := run events initialEngine in
   isAnimatingRef running = true ->
   let after := run later (rendered p w h dpr running) in
   isAnimatingRef after = true /\
   rafQueue after = [] /\
   exists ops : list CanvasOp,
     issued after = issued running ++ ops /\
     forallb isSizingOp ops = true).
Proof.
  split.
  - intros Habsent. rewrite drawFrame_absent_image by exact Habsent.
    split; reflexivity.
  - intros running Hrun after.
    pose proof (run_tickInv events initialEngine tickInv_initial) as Hinv.
    fold running in Hinv.
    destruct (rendered_stalls p w h dpr running Hinv Hrun) as (Hst & _).
    destruct (rendered_running p w h dpr running Hrun) as (_ & Hissued).
    destruct (stalled_run later _ Hst) as ((Hr' & Hq' & _) & _ & ops & Hi & Hs).
    fold after in Hr', Hq', Hi.
    split; [exact Hr' |]. split; [exact Hq' |].
    exists (sizingOps w h (if Req_dec_T dpr 0 then 1 else dpr) ++ ops).
    rewrite Hi, Hissued, <- app_assoc.
    split; [reflexivity |].
    rewrite forallb_app, sizingOps_sizing, Hs. reflexivity.
Qed.

Lemma drawFrame_skips_when_image_absent_witness :
  let s := set_isAnimatingRef true (mountedEngine 400 300) in
  let r := currentRender secondMissing s in
  let running := run [Click bothLoaded; Frame 16] initialEngine in
  let after :=
    run [Frame 32; Rendered secondMissing 400 300 2; Frame 3000]
      (rendered secondMissing 400 300 2 running) in
  (drawFrame r 0.5 s = s /\ ctxRef (drawFrame r 0.5 s) = ctxRef s) /\
  (isAnimatingRef after = true /\
   rafQueue after = [] /\
   exists ops : list CanvasOp,
     issued after = issued running ++ ops /\
     forallb isSizingOp ops = true).
Proof.
  intros s r running after.
  pose proof (drawFrame_skips_when_image_absent r secondMissing 0.5 s
                [Click bothLoaded; Frame 16]
                [Frame 32; Rendered secondMissing 400 300 2; Frame 3000]
                400 300 2)
    as [Hframe Hrender].
  split.
  - apply Hframe. right. reflexivity.
  - apply Hrender. exact (proj1 sampleMidRun_facts).
Defined.
